(** * Chess-Statistics-Toolkit: the chunker, the concurrent fetch engine and
      the PGN record stream parser of [utils.py].

    The three parts of [utils.py] that carry logic are embedded as executable
    Rocq functions:

    - [_chunks]                 (utils.py, lines 174-178)
    - [_concurrent_function]    (utils.py, lines 181-236)
    - [get_game_data_lichess]   (utils.py, lines 33-99)

    Python exceptions are values of type [exn]; a computation that may raise
    returns a [result]. *)

From Stdlib Require Import ZArith Lia List Strings.Byte Strings.String.
From stdpp Require Import base list functions gmap.

Local Open Scope Z_scope.

(** ** Exceptions *)

(** The exception classes that the modelled code can raise or let through.
    [UnboundLocalError] is a subclass of [NameError] in Python; both are
    written [NameError] here.  [HTTPError] carries the status code that the
    engine inspects; [OtherError] stands for every other exception class a
    fetch operation may raise (for instance [URLError]). *)
Inductive exn : Type :=
  | ValueError
  | IndexError
  | NameError
  | UnicodeDecodeError
  | HTTPError (code : Z)
  | OtherError (tag : nat).

Inductive result (A : Type) : Type :=
  | Return (a : A)
  | Raise (e : exn).
Arguments Return {A} a.
Arguments Raise {A} e.

(** ** The chunker *)

Section Chunks.
Context {A : Type}.

(** [input_list[i:j]] for [0 <= i <= j]. *)
Definition slice (i j : nat) (l : list A) : list A :=
  take (j - i) (drop i l).

(** The values of [range(0, stop, step)] for a positive [step]: the
    multiples of [step] below [stop]. *)
Definition range_from_0 (stop step : nat) : list nat :=
  (fun j => j * step)%nat <$> seq 0 (Nat.div (stop + step - 1) step).

(** [_chunks(input_list, chunk_size)], run to exhaustion.  [range] raises
    [ValueError] for a zero step and is empty for a negative one. *)
Definition _chunks (input_list : list A) (chunk_size : Z)
  : result (list (list A)) :=
  if chunk_size =? 0 then Raise ValueError
  else if chunk_size <? 0 then Return []
  else
    let k := Z.to_nat chunk_size in
    Return ((fun i => slice i (i + k) input_list)
              <$> range_from_0 (length input_list) k).
End Chunks.

(** ** The concurrent fetch engine *)

(** What one call [func(i)] does: it returns a value or raises. *)
Inductive outcome (V : Type) : Type :=
  | Ok (v : V)
  | Fails (e : exn).
Arguments Ok {V} v.
Arguments Fails {V} e.

(** The local state of one call of [thread_attempt_get].  [exc_bound] tells
    whether the local name [exc] is bound: [with ... as exc] binds it to the
    executor, and Python unbinds the target of [except ... as exc] when the
    handler is left. *)
Record attempt_state (Item V : Type) : Type := mk_attempt {
  results : list V;
  failed_requests : list Item;
  exc_bound : bool
}.
Arguments mk_attempt {Item V} _ _ _.
Arguments results {Item V} _.
Arguments failed_requests {Item V} _.
Arguments exc_bound {Item V} _.

Section Engine.
Context {Item V W : Type}.

(** A completed future together with the item [future_to_username] maps it
    to. *)
Definition future : Type := Item * outcome V.

(** [func] is an arbitrary effectful callable: it reads and changes a world
    [W] (the remote service).  [done_order] is the order in which the set
    returned by [cf.wait] is iterated; it may depend on the world. *)
Variable func : Item -> W -> outcome V * W.
Variable max_workers : Z.
Variable done_order : W -> list future -> list future.

(** [{exc.submit(func, i): i for i in chunk}] followed by [cf.wait]: every
    item of the chunk is invoked, in submission order. *)
Fixpoint submit_all (chunk : list Item) (w : W) : list future * W :=
  match chunk with
  | [] => ([], w)
  | i :: rest =>
      let '(o, w1) := func i w in
      let '(futs, w2) := submit_all rest w1 in
      ((i, o) :: futs, w2)
  end.

(** [for completed_future in completed_futures: try ... except ...]. *)
Fixpoint collect (completed_futures : list future)
    (st : attempt_state Item V) : result (attempt_state Item V) :=
  match completed_futures with
  | [] => Return st
  | (username, Ok v) :: rest =>
      collect rest
        (mk_attempt (results st ++ [v]) (failed_requests st) (exc_bound st))
  | (username, Fails (HTTPError code)) :: rest =>
      if code =? 429 then
        collect rest
          (mk_attempt (results st) (failed_requests st ++ [username]) false)
      else if negb (code =? 404) then Raise (HTTPError code)
      else collect rest (mk_attempt (results st) (failed_requests st) false)
  | (username, Fails e) :: rest => Raise e
  end.

(** [for chunk in _chunks(data, max_workers): ...].  The comprehension
    reads [exc] once per item of the chunk, so a non-empty chunk needs the
    name bound. *)
Fixpoint run_chunks (chunks : list (list Item))
    (st : attempt_state Item V) (w : W)
  : result (attempt_state Item V) * W :=
  match chunks with
  | [] => (Return st, w)
  | chunk :: rest =>
      match chunk, exc_bound st with
      | _ :: _, false => (Raise NameError, w)
      | _, _ =>
          let '(futs, w1) := submit_all chunk w in
          match collect (done_order w1 futs) st with
          | Return st1 => run_chunks rest st1 w1
          | Raise e => (Raise e, w1)
          end
      end
  end.

(** [thread_attempt_get(data)].  [ThreadPoolExecutor] raises [ValueError]
    for a non-positive [max_workers]. *)
Definition thread_attempt_get (data : list Item) (w : W)
  : result (list V * list Item) * W :=
  if max_workers <=? 0 then (Raise ValueError, w)
  else
    match _chunks data max_workers with
    | Raise e => (Raise e, w)
    | Return chunks =>
        match run_chunks chunks (mk_attempt [] [] true) w with
        | (Return st, w1) => (Return (results st, failed_requests st), w1)
        | (Raise e, w1) => (Raise e, w1)
        end
    end.

(** [while failed_requests: ...]; [None] when the fuel runs out before the
    loop is left. *)
Fixpoint retry_loop (fuel : nat) (res : list V) (failed : list Item)
    (w : W) : option (result (list V)) * W :=
  match failed with
  | [] => (Some (Return res), w)
  | _ :: _ =>
      match fuel with
      | O => (None, w)
      | S fuel' =>
          match thread_attempt_get failed w with
          | (Return (new_results, failed'), w1) =>
              retry_loop fuel' (res ++ new_results) failed' w1
          | (Raise e, w1) => (Some (Raise e), w1)
          end
      end
  end.

(** [thread(data)]: the function [_concurrent_function] returns. *)
Definition thread (fuel : nat) (data : list Item) (w : W)
  : option (result (list V)) * W :=
  match thread_attempt_get data w with
  | (Return (res, failed), w1) => retry_loop fuel res failed w1
  | (Raise e, w1) => (Some (Raise e), w1)
  end.
End Engine.

(** [_concurrent_function(func, max_workers)] is [thread] closed over its
    two arguments. *)
Definition _concurrent_function {Item V W : Type}
    (func : Item -> W -> outcome V * W) (max_workers : Z) :=
  thread func max_workers.

(** ** The record stream parser *)

(** Python [bytes] are lists of bytes, Python [str] are lists of Unicode
    code points. *)
Abbreviation bytes := (list byte).
Abbreviation str := (list N).

#[global] Instance byte_eq_decision : EqDecision byte := Byte.byte_eq_dec.

(** A [str] literal with ASCII content. *)
Definition u (s : string) : str := Byte.to_N <$> list_byte_of_string s.

(** A [bytes] literal. *)
Definition b (s : string) : bytes := list_byte_of_string s.

Section Text.
Local Open Scope N_scope.

Definition is_cont (c : N) : bool := (128 <=? c) && (c <=? 191).

(** [bytes.decode("utf-8")] with the default strict error handling: [None]
    stands for [UnicodeDecodeError].  Overlong forms, surrogates and code
    points above U+10FFFF are rejected. *)
Fixpoint decode_utf8 (bs : list N) : option str :=
  match bs with
  | [] => Some []
  | b0 :: t0 =>
    if b0 <? 128 then cons b0 <$> decode_utf8 t0
    else
      match t0 with
      | [] => None
      | b1 :: t1 =>
        if (194 <=? b0) && (b0 <=? 223) then
          if is_cont b1
          then cons ((b0 - 192) * 64 + (b1 - 128)) <$> decode_utf8 t1
          else None
        else
          match t1 with
          | [] => None
          | b2 :: t2 =>
            if (224 <=? b0) && (b0 <=? 239) then
              if is_cont b1 && is_cont b2
                 && negb ((b0 =? 224) && (b1 <? 160))
                 && negb ((b0 =? 237) && (159 <? b1))
              then cons ((b0 - 224) * 4096 + (b1 - 128) * 64 + (b2 - 128))
                     <$> decode_utf8 t2
              else None
            else
              match t2 with
              | [] => None
              | b3 :: t3 =>
                if (240 <=? b0) && (b0 <=? 244) then
                  if is_cont b1 && is_cont b2 && is_cont b3
                     && negb ((b0 =? 240) && (b1 <? 144))
                     && negb ((b0 =? 244) && (143 <? b1))
                  then cons ((b0 - 240) * 262144 + (b1 - 128) * 4096
                             + (b2 - 128) * 64 + (b3 - 128))
                         <$> decode_utf8 t3
                  else None
                else None
              end
          end
      end
  end.

Definition decode (bs : bytes) : option str := decode_utf8 (Byte.to_N <$> bs).

(** The bytes [bytes.rstrip()] removes: ASCII white space. *)
Definition bytes_isspace (c : byte) : bool :=
  let n := Byte.to_N c in ((9 <=? n) && (n <=? 13)) || (n =? 32).

(** The code points [str.rstrip()] removes: those for which
    [str.isspace()] holds. *)
Definition str_isspace (c : N) : bool :=
  ((9 <=? c) && (c <=? 13)) || ((28 <=? c) && (c <=? 32))
  || (c =? 133) || (c =? 160) || (c =? 5760)
  || ((8192 <=? c) && (c <=? 8202))
  || (c =? 8232) || (c =? 8233) || (c =? 8239) || (c =? 8287)
  || (c =? 12288).

(** [x.rstrip()]: drop the longest suffix of white space. *)
Fixpoint rstrip {A : Type} (isspace : A -> bool) (x : list A) : list A :=
  match x with
  | [] => []
  | c :: t =>
      match rstrip isspace t with
      | [] => if isspace c then [] else [c]
      | t' => c :: t'
      end
  end.

(** The indices of the quotation marks (code point 34) of [line], the
    first character having index [i]: the list [quote_indices]. *)
Fixpoint quote_indices_from (i : nat) (line : str) : list nat :=
  match line with
  | [] => []
  | x :: t =>
      if x =? 34 then i :: quote_indices_from (S i) t
      else quote_indices_from (S i) t
  end.

Definition quote_indices (line : str) : list nat := quote_indices_from 0 line.
End Text.

(** Lines 81-83: the name and the value of a decoded tag line.  Indexing
    [quote_indices] beyond its end raises [IndexError]. *)
Definition split_tag (line : str) : result (str * str) :=
  match quote_indices line !! 0%nat with
  | None => Raise IndexError
  | Some q0 =>
      let tag_name := rstrip str_isspace (take q0 line) in
      match quote_indices line !! 1%nat with
      | None => Raise IndexError
      | Some q1 => Return (tag_name, slice (q0 + 1) q1 line)
      end
  end.

(** Iterating over the opened file: the decompressed content cut after every
    newline byte; the last line may lack one. *)
Fixpoint file_lines_from (cur : bytes) (content : bytes) : list bytes :=
  match content with
  | [] => match cur with [] => [] | _ :: _ => [cur] end
  | c :: rest =>
      if Byte.eqb c x0a then (cur ++ [c]) :: file_lines_from [] rest
      else file_lines_from (cur ++ [c]) rest
  end.

Definition file_lines (content : bytes) : list bytes :=
  file_lines_from [] content.

(** [max_games]: an [int], or [math.inf]. *)
Inductive limit : Type :=
  | Int (n : Z)
  | Inf.

(** [games_analyzed > max_games]. *)
Definition exceeds (games_analyzed : Z) (max_games : limit) : bool :=
  match max_games with
  | Int n => n <? games_analyzed
  | Inf => false
  end.

(** The local variables of the generator; [current_game] is [None] while the
    name is unbound. *)
Record parser_state : Type := mk_parser {
  games_analyzed : Z;
  l : Z;
  current_game : option (gmap str str)
}.

(** How one pass through the loop body ends. *)
Inductive control : Type :=
  | Next
  | Break.

Definition startswith_bracket (line : bytes) : bool :=
  match line with
  | c :: _ => Byte.eqb c x5b
  | [] => false
  end.

Section Parser.
Variable tags : gset str.
Variable max_games : limit.

(** [current_game[key] = value]; the right-hand side is already evaluated
    when the unbound name is read. *)
Definition store (key value : str) (st : parser_state)
  : result parser_state :=
  match current_game st with
  | None => Raise NameError
  | Some game =>
      Return (mk_parser (games_analyzed st) (l st)
                (Some (<[key := value]> game)))
  end.

(** Lines 94-96: [if tag_name in tags: current_game[tag_name] = tag_value]. *)
Definition fetch_tag (tag_name tag_value : str) (st : parser_state)
  : result parser_state :=
  if bool_decide (tag_name ∈ tags) then store tag_name tag_value st
  else Return st.

(** Lines 85-96, for a tag line already cut into name and value.  The
    first component is the record yielded by this pass, if any. *)
Definition tag_line (tag_name tag_value : str) (st : parser_state)
  : result (option (gmap str str) * parser_state * control) :=
  if bool_decide (tag_name = u "Event") then
    let yielded :=
      if 0 <? games_analyzed st then
        match current_game st with
        | Some game => Return (Some game)
        | None => Raise NameError
        end
      else Return None in
    match yielded with
    | Raise e => Raise e
    | Return y =>
        let st1 := mk_parser (games_analyzed st + 1) (l st) (Some ∅) in
        if exceeds (games_analyzed st1) max_games then Return (y, st1, Break)
        else
          match fetch_tag tag_name tag_value st1 with
          | Return st2 => Return (y, st2, Next)
          | Raise e => Raise e
          end
    end
  else
    match fetch_tag tag_name tag_value st with
    | Return st1 => Return (None, st1, Next)
    | Raise e => Raise e
    end.

(** One pass through the body of the [for] loop (lines 69-96). *)
Definition step (line : bytes) (st0 : parser_state)
  : result (option (gmap str str) * parser_state * control) :=
  let st := mk_parser (games_analyzed st0) (l st0 + 1) (current_game st0) in
  if bool_decide (line = [x0a]) then Return (None, st, Next)
  else if negb (startswith_bracket line) then
    if bool_decide (u "Movetext" ∈ tags) then
      match decode (rstrip bytes_isspace line) with
      | None => Raise UnicodeDecodeError
      | Some text =>
          match store (u "Movetext") text st with
          | Return st1 => Return (None, st1, Next)
          | Raise e => Raise e
          end
      end
    else Return (None, st, Next)
  else
    match decode (drop 1 line) with
    | None => Raise UnicodeDecodeError
    | Some line' =>
        match split_tag line' with
        | Raise e => Raise e
        | Return (tag_name, tag_value) => tag_line tag_name tag_value st
        end
    end.

(** The [for] loop from a given state: the records yielded, and either the
    state in which the loop is left, with [Break] when it is left by
    [break] and [Next] when the lines are exhausted, or the exception that
    ends the generator. *)
Fixpoint scan (lines : list bytes) (st : parser_state)
  : list (gmap str str) * result (parser_state * control) :=
  match lines with
  | [] => ([], Return (st, Next))
  | line :: rest =>
      match step line st with
      | Raise e => ([], Raise e)
      | Return (y, st1, Break) => (option_list y, Return (st1, Break))
      | Return (y, st1, Next) =>
          let '(ys, r) := scan rest st1 in (option_list y ++ ys, r)
      end
  end.

(** [get_game_data_lichess(file_path, tags, max_games)] run to exhaustion
    on a file whose iteration gives [lines]: the records yielded, and
    either the number written by [print(l)] or the exception raised. *)
Definition get_game_data_lichess (lines : list bytes)
  : list (gmap str str) * result Z :=
  match scan lines (mk_parser 0 0 None) with
  | (ys, Return (st, _)) => (ys, Return (l st))
  | (ys, Raise e) => (ys, Raise e)
  end.
End Parser.

(** ** The callers of the engine *)

Section Lichess.
Context {Item V W : Type}.

(** [fetch_300] is the nested function of lines 111-120: one POST request
    that carries the given usernames and answers with a list.  [set_order]
    is the order in which [list(set(usernames))] lists the usernames. *)
Variable fetch_300 : list Item -> W -> outcome (list V) * W.
Variable set_order : list Item -> list Item.
Variable done_order :
  W -> list (list Item * outcome (list V)) ->
  list (list Item * outcome (list V)).

(** [get_user_data_lichess(usernames)] (lines 102-128): the distinct
    usernames are cut into chunks of 300, the chunks are the items of the
    engine, and the lists fetched are appended to one another. *)
Definition get_user_data_lichess (fuel : nat) (usernames : list Item)
    (w : W) : option (result (list V)) * W :=
  match _chunks (set_order usernames) 300 with
  | Raise e => (Some (Raise e), w)
  | Return chunked_usernames =>
      match _concurrent_function fetch_300 100 done_order fuel
              chunked_usernames w with
      | (Some (Return fetched), w1) => (Some (Return (concat fetched)), w1)
      | (Some (Raise e), w1) => (Some (Raise e), w1)
      | (None, w1) => (None, w1)
      end
  end.
End Lichess.

Section ChessCom.
Context {V W : Type}.

(** [urlopen] stands for [urllib.request.urlopen(url)] followed by
    [json.load]: the decoded answer, or the exception raised. *)
Variable urlopen : str -> W -> outcome V * W.
Variable done_order :
  W -> list (str * outcome (gmap str V)) -> list (str * outcome (gmap str V)).

(** The nested function [fetch] of lines 143-155: the profile is requested,
    then the stats. *)
Definition fetch (username : str) (w : W) : outcome (gmap str V) * W :=
  let profile_url := u "https://api.chess.com/pub/player/" ++ username in
  let stats_url :=
    (u "https://api.chess.com/pub/player/" ++ username) ++ u "/stats" in
  match urlopen profile_url w with
  | (Fails e, w1) => (Fails e, w1)
  | (Ok profile, w1) =>
      match urlopen stats_url w1 with
      | (Fails e, w2) => (Fails e, w2)
      | (Ok stats, w2) =>
          (Ok (<[u "stats" := stats]> (<[u "profile" := profile]> ∅)), w2)
      end
  end.

(** [get_user_data_chesscom(usernames)] (lines 131-157). *)
Definition get_user_data_chesscom (fuel : nat) (usernames : list str) (w : W)
  : option (result (list (gmap str V))) * W :=
  _concurrent_function fetch 100 done_order fuel usernames w.
End ChessCom.

(** ** The tally of [example_get_games.py] *)

Definition TIME_FORMATS : list str := [u "Bullet"; u "Blitz"; u "Classical"].
Definition GAME_RESULTS : list str := [u "1-0"; u "1/2-1/2"; u "0-1"].

(** [KeyError] is among the exception classes written [OtherError]. *)
Definition KeyError : exn := OtherError 0.

(** [s.split()]: the maximal runs of characters that are not white space;
    [cur] is the run being read. *)
Fixpoint split_from (cur : str) (s : str) : list str :=
  match s with
  | [] => match cur with [] => [] | _ :: _ => [cur] end
  | c :: t =>
      if str_isspace c then
        match cur with
        | [] => split_from [] t
        | _ :: _ => cur :: split_from [] t
        end
      else split_from (cur ++ [c]) t
  end.

Definition split (s : str) : list str := split_from [] s.

(** [xs.index(x)]: the first position of [x], [None] standing for
    [ValueError]. *)
Fixpoint index (x : str) (xs : list str) : option nat :=
  match xs with
  | [] => None
  | y :: ys => if bool_decide (y = x) then Some 0%nat else S <$> index x ys
  end.

(** One pass through the loop of [main] (lines 29-35).  The cells of
    [data], created by [np.zeros([3, 3])], hold whole numbers and are
    written as natural numbers. *)
Definition tally_step (data : list (list nat)) (game : gmap str str)
  : result (list (list nat)) :=
  match game !! u "Event" with
  | None => Raise KeyError
  | Some event =>
      match split event !! 1%nat with
      | None => Raise IndexError
      | Some time_format =>
          match index time_format TIME_FORMATS with
          | None => Return data
          | Some time_index =>
              match game !! u "Result" with
              | None => Raise KeyError
              | Some game_result =>
                  match index game_result GAME_RESULTS with
                  | None => Raise ValueError
                  | Some result_index =>
                      Return (alter (alter S time_index) result_index data)
                  end
              end
          end
      end
  end.

(** The loop of [main] over the games the generator yields. *)
Fixpoint tally (games : list (gmap str str)) (data : list (list nat))
  : result (list (list nat)) :=
  match games with
  | [] => Return data
  | game :: rest =>
      match tally_step data game with
      | Return data1 => tally rest data1
      | Raise e => Raise e
      end
  end.

(** [np.zeros([3, 3])]. *)
Definition zeros : list (list nat) := replicate 3 (replicate 3 0%nat).

(** ** Example inputs *)

Definition quote : string := String (Ascii.ascii_of_nat 34) EmptyString.
Definition newline : string := String (Ascii.ascii_of_nat 10) EmptyString.

(** The line [[name "value"]] with its newline. *)
Definition tag (name value : string) : string :=
  ("[" ++ name ++ " " ++ quote ++ value ++ quote ++ "]" ++ newline)%string.

(** The archive of the concrete scenario of the specification. *)
Definition scenario : list bytes :=
  file_lines (b (tag "Event" "Rated Blitz game" ++ tag "Result" "1-0"
                 ++ newline
                 ++ tag "Event" "Rated Bullet game" ++ tag "Result" "0-1")).

(** Three records, given line by line; the first has a two-line body. *)
Definition game1 : list bytes :=
  [b (tag "Event" "Rated Blitz game"); b (tag "Result" "1-0"); b newline;
   b ("1. e4 e5 2. Nf3 Nc6" ++ newline); b ("3. Bb5 a6 1-0" ++ newline);
   b newline].

Definition game2 : list bytes :=
  [b (tag "Event" "Rated Bullet game"); b (tag "Result" "0-1"); b newline].

Definition game3 : list bytes :=
  [b (tag "Event" "Rated Classical game"); b (tag "Result" "1/2-1/2")].

(** An archive whose second line lacks the closing quotation mark. *)
Definition missing_quote : list bytes :=
  file_lines (b (tag "Event" "Rated Blitz game"
                 ++ "[Result " ++ quote ++ "1-0]" ++ newline)).

(** An archive that starts with a [Result] line. *)
Definition headless : list bytes :=
  [b newline; b (tag "Result" "1-0"); b (tag "Event" "Rated Blitz game")].

(** A service that answers a request for users with their doubles. *)
Definition doubles (c : list nat) : list nat := (fun x => 2 * x)%nat <$> c.

Definition answer_doubles (c : list nat) (w : unit)
  : outcome (list nat) * unit :=
  (Ok (doubles c), w).

(** The pages of two users: [ann] has a profile and stats, [bob] has a
    profile and no stats; no other page is there. *)
Definition pages (url : str) : outcome nat :=
  if bool_decide (url = u "https://api.chess.com/pub/player/ann") then Ok 1%nat
  else if bool_decide (url = u "https://api.chess.com/pub/player/ann/stats")
  then Ok 2%nat
  else if bool_decide (url = u "https://api.chess.com/pub/player/bob")
  then Ok 3%nat
  else Fails (HTTPError 404).

(** Three games as the generator yields them: two Blitz games won by
    White and a correspondence game without result. *)
Definition three_games : list (gmap str str) :=
  [ {[ u "Event" := u "Rated Blitz game"; u "Result" := u "1-0" ]};
    {[ u "Event" := u "Rated Correspondence game"; u "Result" := u "*" ]};
    {[ u "Event" := u "Rated Blitz tournament"; u "Result" := u "1-0" ]} ].

(** ** Vocabulary of the statements *)

(** The outcomes the engine recovers from locally: a value, a rate-limited
    request (429) and a missing entity (404).  Every other outcome is fatal. *)
Definition benign {V : Type} (o : outcome V) : bool :=
  match o with
  | Ok _ => true
  | Fails (HTTPError code) => (code =? 429) || (code =? 404)
  | Fails _ => false
  end.

Definition is_ok {V : Type} (o : outcome V) : bool :=
  match o with
  | Ok _ => true
  | Fails _ => false
  end.

(** The values of the futures that succeeded, in order. *)
Definition successes {Item V : Type} (futs : list (Item * outcome V))
  : list V :=
  omap (fun fut => match fut.2 with Ok v => Some v | Fails _ => None end) futs.

(** The items of the futures that were rate-limited, in order. *)
Definition rate_limited {Item V : Type} (futs : list (Item * outcome V))
  : list Item :=
  omap (fun fut =>
          match fut.2 with
          | Fails (HTTPError code) => if code =? 429 then Some fut.1 else None
          | _ => None
          end) futs.

(** A fetch operation observed: [logged func] behaves as [func] and appends
    every call, with its outcome, to a log kept beside the world. *)
Definition logged {Item V W : Type} (func : Item -> W -> outcome V * W)
    (x : Item) (wl : W * list (Item * outcome V))
  : outcome V * (W * list (Item * outcome V)) :=
  let '(o, w1) := func x wl.1 in (o, (w1, wl.2 ++ [(x, o)])).

(** No call recorded in the log had a fatal outcome. *)
Definition no_fatal {Item V : Type} (log : list (Item * outcome V)) : Prop :=
  Forall (fun fut => benign fut.2 = true) log.

(** Either no call in the log was fatal, or [e] is a fatal error of the log:
    a fatal outcome in the log has been raised to the caller. *)
Definition raised_from_log {Item V : Type} (e : option exn)
    (log : list (Item * outcome V)) : Prop :=
  no_fatal log
  \/ exists y e', e = Some e' /\ (y, Fails e') ∈ log
                 /\ benign (V := V) (Fails e') = false.

(** A remote service whose answer to a request depends only on the item and
    on how many requests it has already seen for this item: [beh x n] is the
    outcome of invocation number [n] (from 0) on [x].  The world counts the
    invocations per item. *)
Definition scripted {Item V : Type} `{EqDecision Item}
    (beh : Item -> nat -> outcome V) (x : Item) (w : Item -> nat)
  : outcome V * (Item -> nat) :=
  (beh x (w x), <[x := S (w x)]> w).

(** An outcome after which the engine asks no more: a value or a 404. *)
Definition settled {V : Type} (o : outcome V) : bool :=
  match o with
  | Ok _ => true
  | Fails (HTTPError code) => code =? 404
  | Fails _ => false
  end.

(** A service that rate-limits item 1 twice before answering 10, and
    answers 20 for every other item. *)
Definition flaky_service (y n : nat) : outcome nat :=
  if Nat.eqb y 1
  then if Nat.ltb n 2 then Fails (HTTPError 429) else Ok 10%nat
  else Ok 20%nat.

(** From this invocation number on, [flaky_service] no longer rate-limits
    the item. *)
Definition flaky_N (y : nat) : nat := if Nat.eqb y 1 then 2%nat else 0%nat.

(** A service as [flaky_service], except that item 3 always answers with
    status 500. *)
Definition broken_service (y n : nat) : outcome nat :=
  if Nat.eqb y 3 then Fails (HTTPError 500) else flaky_service y n.

(** A stateless service that does not know user 0 and answers [x] for every
    other user [x]. *)
Definition missing_first (x : nat) (w : unit) : outcome nat * unit :=
  (if Nat.eqb x 0 then Fails (HTTPError 404) else Ok x, w).

(** What a line is for the parser, whatever the state: the three tests of
    the loop body (lines 70, 74 and 80-83) applied to the line alone. *)
Inductive line_view : Type :=
  | BlankLine
  | BodyLine (text : option str)
  | TagLine (tag_name tag_value : str)
  | BadTagLine (e : exn).

Definition view (line : bytes) : line_view :=
  if bool_decide (line = [x0a]) then BlankLine
  else if negb (startswith_bracket line)
  then BodyLine (decode (rstrip bytes_isspace line))
  else
    match decode (drop 1 line) with
    | None => BadTagLine UnicodeDecodeError
    | Some line' =>
        match split_tag line' with
        | Raise e => BadTagLine e
        | Return (tag_name, tag_value) => TagLine tag_name tag_value
        end
    end.

(** The field a line of a record contributes to the record. *)
Definition field (tags : gset str) (game : gmap str str) (line : bytes)
  : gmap str str :=
  match view line with
  | TagLine tag_name tag_value =>
      if bool_decide (tag_name ∈ tags) then <[tag_name := tag_value]> game
      else game
  | BodyLine (Some text) =>
      if bool_decide (u "Movetext" ∈ tags) then <[u "Movetext" := text]> game
      else game
  | _ => game
  end.

(** The mapping described by the lines of one record. *)
Definition build (tags : gset str) (lines : list bytes) : gmap str str :=
  foldl (field tags) ∅ lines.

(** A boundary line: a tag line named [Event]. *)
Definition boundary (line : bytes) : Prop :=
  exists tag_value, view line = TagLine (u "Event") tag_value.

(** A line that may follow the boundary line inside a record: a blank line,
    a body line (of valid UTF-8 when [Movetext] is asked for), or a tag line
    with two quotation marks and another name than [Event]. *)
Definition inner_line (tags : gset str) (line : bytes) : Prop :=
  match view line with
  | BlankLine => True
  | BodyLine text => u "Movetext" ∈ tags -> is_Some text
  | TagLine tag_name _ => tag_name <> u "Event"
  | BadTagLine _ => False
  end.

(** The lines of one record: a boundary line, then inner lines. *)
Definition record_lines (tags : gset str) (r : list bytes) : Prop :=
  exists head inner,
    r = head :: inner /\ boundary head /\ Forall (inner_line tags) inner.

(** A blank line or a body line of valid UTF-8. *)
Definition body_or_blank (line : bytes) : Prop :=
  view line = BlankLine \/ exists text, view line = BodyLine (Some text).

(** The test of line 86 on a line: a tag line named [Event]. *)
Definition is_boundary (line : bytes) : bool :=
  match view line with
  | TagLine tag_name _ => bool_decide (tag_name = u "Event")
  | _ => false
  end.

(** The lines the parser passes over: blank lines, body lines when
    [Movetext] is not asked for, and tag lines with two quotation marks
    whose name is neither [Event] nor in [tags]. *)
Definition ignored (tags : gset str) (line : bytes) : bool :=
  match view line with
  | BlankLine => true
  | BodyLine _ => negb (bool_decide (u "Movetext" ∈ tags))
  | TagLine tag_name _ =>
      negb (bool_decide (tag_name = u "Event"))
      && negb (bool_decide (tag_name ∈ tags))
  | BadTagLine _ => false
  end.

(** The state with another line counter. *)
Definition with_l (n : Z) (st : parser_state) : parser_state :=
  mk_parser (games_analyzed st) n (current_game st).

(** The number of records that may still be yielded in a state of the loop
    under the limit [m]. *)
Definition allowance (m : Z) (st : parser_state) : nat :=
  Z.to_nat (m - Z.max (games_analyzed st - 1) 0).

(** What [get_user_data_chesscom] reports for a user when the page at
    [url] is [page url]: the two pages, if both are there. *)
Definition user_data {V : Type} (page : str -> outcome V) (username : str)
  : outcome (gmap str V) :=
  match page (u "https://api.chess.com/pub/player/" ++ username) with
  | Fails e => Fails e
  | Ok profile =>
      match page ((u "https://api.chess.com/pub/player/" ++ username)
                    ++ u "/stats") with
      | Fails e => Fails e
      | Ok stats =>
          Ok (<[u "stats" := stats]> (<[u "profile" := profile]> ∅))
      end
  end.

(** The cell of the tally a game belongs to: the position of its result
    and the position of its time format, the second word of its event. *)
Definition cell_of (game : gmap str str) : option (nat * nat) :=
  event ← game !! u "Event";
  time_format ← split event !! 1%nat;
  time_index ← index time_format TIME_FORMATS;
  game_result ← game !! u "Result";
  result_index ← index game_result GAME_RESULTS;
  Some (result_index, time_index).

(** [data[r][t]]. *)
Definition cell (r t : nat) (data : list (list nat)) : nat :=
  default 0%nat (data !! r ≫= fun row => row !! t).

(** Three rows of three cells. *)
Definition shape (data : list (list nat)) : Prop :=
  length data = 3%nat /\ Forall (fun row => length row = 3%nat) data.

(** Tactics for the statements at concrete archives. *)
Ltac eval_view :=
  match goal with
  | |- context [view ?x] =>
      let v := eval vm_compute in (view x) in change (view x) with v
  end.

Ltac concrete_boundary := eexists; vm_compute; reflexivity.

Ltac concrete_inner_line :=
  unfold inner_line; eval_view; cbv beta iota;
  first [ exact I
        | intros Heq; vm_compute in Heq; discriminate Heq
        | intros _; eexists; reflexivity ].

Ltac concrete_record :=
  eexists _, _; split; [reflexivity|]; split;
  [ concrete_boundary
  | repeat (constructor; [concrete_inner_line|]); constructor ].

(** * Properties *)

(** ** The chunker *)

Section ChunksFacts.
Context {A : Type}.
Implicit Types (S : list A) (k n : nat).
Local Open Scope nat_scope.

Lemma range_from_0_count stop k :
  0 < k ->
  let n := (stop + k - 1) / k in
  stop <= n * k /\ (n = 0 \/ (n - 1) * k < stop).
Proof.
  intros Hk n.
  pose proof (Nat.Div0.mul_div_le (stop + k - 1) k) as Hle.
  pose proof (Nat.mul_succ_div_gt (stop + k - 1) k ltac:(lia)) as Hgt.
  fold n in Hle, Hgt. destruct n as [|n]; simpl; [lia|]. split; [nia|].
  right. nia.
Qed.

Lemma concat_slices S k n :
  concat ((fun i => slice i (i + k) S) <$> ((fun j => j * k) <$> seq 0 n))
  = take (n * k) S.
Proof.
  induction n as [|n IH]; [done|].
  rewrite seq_S, !fmap_app, concat_app, IH. simpl.
  unfold slice. rewrite app_nil_r.
  replace (n * k + k - n * k) with k by lia.
  rewrite take_take_drop. f_equal. lia.
Qed.

Lemma chunks_lookup S k i c :
  0 < k ->
  ((fun i => slice i (i + k) S) <$> range_from_0 (length S) k) !! i = Some c ->
  c = take k (drop (i * k) S) /\ i < (length S + k - 1) / k.
Proof.
  intros Hk. unfold range_from_0. rewrite !list_lookup_fmap.
  destruct (seq 0 ((length S + k - 1) / k) !! i) as [j|] eqn:Hj; [|done].
  apply lookup_seq in Hj as [-> Hlt]. simpl. intros [= <-].
  split; [|done]. unfold slice. f_equal. lia.
Qed.

Lemma chunks_concat S (K : Z) :
  (0 < K)%Z -> exists chunks, _chunks S K = Return chunks /\ concat chunks = S.
Proof.
  intros HK. unfold _chunks.
  destruct (Z.eqb_spec K 0) as [|_]; [lia|].
  destruct (Z.ltb_spec K 0) as [|_]; [lia|].
  eexists; split; [reflexivity|].
  destruct (range_from_0_count (length S) (Z.to_nat K) ltac:(lia)) as [Hup _].
  unfold range_from_0. rewrite concat_slices. by apply take_ge.
Qed.

(** C6.  For a positive chunk size the chunker returns contiguous slices
    (chunk number [i] is [S[i*K : i*K+K]]) whose concatenation is [S], each
    of length at most [K], and all but the last of length exactly [K]. *)
Theorem chunks_partition S (K : Z) :
  (0 < K)%Z ->
  exists chunks,
    _chunks S K = Return chunks
    /\ concat chunks = S
    /\ (forall i c, chunks !! i = Some c ->
          c = take (Z.to_nat K) (drop (i * Z.to_nat K) S)
          /\ length c <= Z.to_nat K
          /\ (Datatypes.S i < length chunks -> length c = Z.to_nat K)).
Proof.
  intros HK. unfold _chunks.
  destruct (Z.eqb_spec K 0) as [|_]; [lia|].
  destruct (Z.ltb_spec K 0) as [|_]; [lia|].
  set (k := Z.to_nat K). assert (Hk : 0 < k) by (unfold k; lia).
  eexists; split; [reflexivity|].
  destruct (range_from_0_count (length S) k Hk) as [Hup Hlow].
  split.
  - unfold range_from_0. rewrite concat_slices. by apply take_ge.
  - intros i c Hc. apply chunks_lookup in Hc as [-> Hi]; [|done].
    split; [done|]. rewrite length_take, length_drop. split; [lia|].
    unfold range_from_0. rewrite !length_fmap, length_seq. intros Hlt.
    destruct Hlow as [Hz|Hlow]; [lia|]. nia.
Qed.
End ChunksFacts.

(** C6 at [S = [1..7]] and [K = 3]. *)
Lemma chunks_partition_witness :
  exists chunks,
    _chunks [1; 2; 3; 4; 5; 6; 7] 3 = Return chunks
    /\ concat chunks = [1; 2; 3; 4; 5; 6; 7]
    /\ (forall i c, chunks !! i = Some c ->
          c = take 3 (drop (i * 3) [1; 2; 3; 4; 5; 6; 7])
          /\ (length c <= 3)%nat
          /\ (S i < length chunks -> length c = 3)%nat).
Proof. apply (chunks_partition [1; 2; 3; 4; 5; 6; 7] 3). lia. Defined.

(** ** The fetch engine *)

Section CollectFacts.
Context {Item V : Type}.
Implicit Types (futs : list (Item * outcome V)) (st : attempt_state Item V).

Lemma collect_benign futs st :
  Forall (fun fut => benign fut.2 = true) futs ->
  collect futs st =
    Return (mk_attempt (results st ++ successes futs)
              (failed_requests st ++ rate_limited futs)
              (exc_bound st && forallb (fun fut => is_ok fut.2) futs)).
Proof.
  intros Hall. revert st.
  induction Hall as [|[y o] futs Ho _ IH]; intros [res failed bound]; simpl.
  - by rewrite !app_nil_r, andb_true_r.
  - destruct o as [v|e]; simpl in *.
    + rewrite IH. simpl. by rewrite <- app_assoc.
    + destruct e as [| | | |code|tag]; try discriminate.
      unfold successes, rate_limited in *. simpl.
      destruct (code =? 429) eqn:H429; simpl.
      * rewrite IH. simpl. by rewrite <- app_assoc, andb_false_r.
      * simpl in Ho. rewrite Ho. simpl. rewrite IH. simpl.
        by rewrite andb_false_r.
Qed.

Lemma collect_fatal futs st :
  Exists (fun fut => benign fut.2 = false) futs ->
  exists y e, collect futs st = Raise e
              /\ (y, Fails e) ∈ futs /\ benign (V := V) (Fails e) = false.
Proof.
  revert st. induction futs as [|[y o] futs IH]; intros st Hex.
  - by apply Exists_nil in Hex.
  - destruct (benign o) eqn:Ho.
    + apply Exists_cons in Hex as [Hex|Hex]; [simpl in Hex; congruence|].
      assert (forall st', exists y' e, collect futs st' = Raise e
                /\ (y', Fails e) ∈ (y, o) :: futs
                /\ benign (V := V) (Fails e) = false) as Hrest.
      { intros st'. destruct (IH st' Hex) as (y' & e & ? & ? & ?).
        exists y', e. rewrite elem_of_cons. auto. }
      destruct o as [v|e]; simpl; [apply Hrest|].
      destruct e as [| | | |code|tag]; try discriminate. simpl in Ho.
      destruct (code =? 429); [apply Hrest|].
      simpl in Ho. rewrite Ho. simpl. apply Hrest.
    + destruct o as [v|e]; [discriminate|].
      exists y, e. split; [|split; [left|done]].
      destruct e as [| | | |code|tag]; simpl; try done.
      simpl in Ho. apply orb_false_iff in Ho as [-> ->]. done.
Qed.

Lemma successes_perm futs1 futs2 :
  futs1 ≡ₚ futs2 -> successes futs1 ≡ₚ successes futs2.
Proof. intros H. unfold successes. by rewrite H. Qed.

Lemma rate_limited_perm futs1 futs2 :
  futs1 ≡ₚ futs2 -> rate_limited futs1 ≡ₚ rate_limited futs2.
Proof. intros H. unfold rate_limited. by rewrite H. Qed.

Lemma forallb_perm (p : Item * outcome V -> bool) futs1 futs2 :
  futs1 ≡ₚ futs2 -> forallb p futs1 = forallb p futs2.
Proof.
  induction 1 as [|x l1 l2 _ IH|x y l|l1 l2 l3 _ IH1 _ IH2]; simpl.
  - done.
  - by rewrite IH.
  - by destruct (p x), (p y).
  - congruence.
Qed.
End CollectFacts.

Section AlwaysSucceeds.
Context {Item V W : Type}.
Variable func : Item -> W -> outcome V * W.
Variable max_workers : Z.
Variable done_order : W -> list (Item * outcome V) -> list (Item * outcome V).
Variable f : Item -> V.

Hypothesis workers_positive : 0 < max_workers.
Hypothesis done_order_perm : forall w futs, done_order w futs ≡ₚ futs.
Hypothesis func_succeeds : forall x w, (func x w).1 = Ok (f x).

Lemma submit_all_succeeds chunk w :
  (submit_all func chunk w).1 = (fun x => (x, Ok (f x))) <$> chunk.
Proof.
  revert w. induction chunk as [|x chunk IH]; intros w; simpl; [done|].
  pose proof (func_succeeds x w) as Hx. destruct (func x w) as [o w1].
  simpl in Hx. subst o. specialize (IH w1).
  destruct (submit_all func chunk w1) as [futs w2]. simpl in *. by rewrite IH.
Qed.

Lemma successes_all_ok (chunk : list Item) :
  successes ((fun x => (x, Ok (f x))) <$> chunk) = f <$> chunk
  /\ rate_limited ((fun x => (x, Ok (f x))) <$> chunk) = []
  /\ forallb (fun fut => is_ok fut.2) ((fun x => (x, Ok (f x))) <$> chunk)
     = true
  /\ Forall (fun fut => benign fut.2 = true)
       ((fun x => (x, Ok (f x))) <$> chunk).
Proof.
  unfold successes, rate_limited.
  induction chunk as [|x chunk (IH1 & IH2 & IH3 & IH4)]; [by repeat split|].
  repeat split; simpl; [by f_equal|done|done|by constructor].
Qed.

Lemma run_chunks_succeeds chunks st w :
  exc_bound st = true ->
  exists st' w',
    run_chunks func done_order chunks st w = (Return st', w')
    /\ results st' ≡ₚ results st ++ (f <$> concat chunks)
    /\ failed_requests st' = failed_requests st.
Proof.
  revert st w. induction chunks as [|chunk chunks IH]; intros st w Hb; simpl.
  - exists st, w. by rewrite app_nil_r.
  - rewrite Hb.
    assert (Hfuts := submit_all_succeeds chunk w).
    destruct (submit_all func chunk w) as [futs w1]. simpl in Hfuts.
    destruct (successes_all_ok chunk) as (Hs & Hr & Hk & Hbn).
    rewrite <- Hfuts in Hs, Hr, Hk, Hbn.
    assert (Hperm := done_order_perm w1 futs).
    assert (Hcol : exists st1,
      collect (done_order w1 futs) st = Return st1
      /\ results st1 ≡ₚ results st ++ (f <$> chunk)
      /\ failed_requests st1 = failed_requests st /\ exc_bound st1 = true).
    { rewrite collect_benign by (by rewrite Hperm).
      eexists; split; [done|]. simpl. repeat split.
      - by rewrite (successes_perm _ _ Hperm), Hs.
      - pose proof (rate_limited_perm _ _ Hperm) as Hnil. rewrite Hr in Hnil.
        apply Permutation_nil_r in Hnil. by rewrite Hnil, app_nil_r.
      - by rewrite Hb, (forallb_perm _ _ _ Hperm), Hk. }
    destruct Hcol as (st1 & -> & Hres & Hfail & Hb1).
    destruct (IH st1 w1 Hb1) as (st' & w' & -> & Hres' & Hfail').
    exists st', w'. split; [by destruct chunk|].
    split; [|congruence]. rewrite Hres', Hres, fmap_app.
    by rewrite <- app_assoc.
Qed.

(** C4.  When [func] succeeds on every call, with the value [f x] for item
    [x], the engine returns (whatever the fuel) a list that is a
    permutation of the image of [f] over the input: as sets the two are
    equal, nothing is lost and nothing is added. *)
Theorem thread_all_succeed fuel data w :
  exists res w',
    thread func max_workers done_order fuel data w = (Some (Return res), w')
    /\ res ≡ₚ f <$> data
    /\ (forall v, v ∈ res <-> exists x, x ∈ data /\ v = f x).
Proof.
  unfold thread, thread_attempt_get.
  destruct (Z.leb_spec max_workers 0) as [|_]; [lia|].
  destruct (chunks_concat data max_workers workers_positive)
    as (chunks & -> & Hcat).
  destruct (run_chunks_succeeds chunks (mk_attempt [] [] true) w eq_refl)
    as (st' & w' & -> & Hres & Hfail).
  simpl in Hres, Hfail. rewrite Hfail. rewrite Hcat in Hres.
  exists (results st'), w'. split; [by destruct fuel|]. split; [done|].
  intros v. rewrite Hres, list_elem_of_fmap.
  split; intros (x & ? & ?); eauto.
Qed.
End AlwaysSucceeds.

(** C4 for three items fetched two at a time, the completed futures being
    iterated in reverse. *)
Lemma thread_all_succeed_witness :
  exists res w',
    thread (fun (x : nat) (w : unit) => (Ok (2 * x)%nat, w)) 2
      (fun _ futs => reverse futs) 0 [1; 2; 3]%nat tt = (Some (Return res), w')
    /\ res ≡ₚ (fun x => 2 * x)%nat <$> [1; 2; 3]%nat
    /\ (forall v,
         v ∈ res <-> exists x, x ∈ [1; 2; 3]%nat /\ v = (2 * x)%nat).
Proof.
  apply (thread_all_succeed (fun (x : nat) (w : unit) => (Ok (2 * x)%nat, w)) 2
           (fun _ futs => reverse futs) (fun x => 2 * x)%nat).
  - lia.
  - intros w futs. apply reverse_Permutation.
  - reflexivity.
Defined.

Section FatalErrors.
Context {Item V W : Type}.
Variable func : Item -> W -> outcome V * W.
Variable max_workers : Z.
Variable done_order :
  W * list (Item * outcome V) ->
  list (Item * outcome V) -> list (Item * outcome V).

Hypothesis done_order_perm : forall w futs, done_order w futs ≡ₚ futs.

Implicit Types (log futs : list (Item * outcome V)).

Lemma submit_all_logged chunk w log :
  exists futs w',
    submit_all (logged func) chunk (w, log) = (futs, (w', log ++ futs)).
Proof.
  revert w log. induction chunk as [|x chunk IH]; intros w log; simpl.
  - exists [], w. by rewrite app_nil_r.
  - unfold logged at 1. simpl. destruct (func x w) as [o w1].
    destruct (IH w1 (log ++ [(x, o)])) as (futs & w' & ->).
    exists ((x, o) :: futs), w'. by rewrite <- app_assoc.
Qed.

Lemma run_chunks_logged chunks st w log r w' log' :
  no_fatal log ->
  run_chunks (logged func) done_order chunks st (w, log) = (r, (w', log')) ->
  raised_from_log (match r with Raise e => Some e | Return _ => None end) log'.
Proof.
  revert st w log. induction chunks as [|chunk chunks IH];
    intros st w log Hlog; simpl.
  - intros [= <- <- <-]. by left.
  - assert (Hnone : (Raise NameError, (w, log)) = (r, (w', log')) ->
      raised_from_log (match r with Raise e => Some e | Return _ => None end)
        log') by (intros [= <- <- <-]; by left).
    destruct (submit_all_logged chunk w log) as (futs & w1 & Hsub).
    assert (Hrun :
      match collect (done_order (w1, log ++ futs) futs) st with
      | Return st1 => run_chunks (logged func) done_order chunks st1
                        (w1, log ++ futs)
      | Raise e => (Raise e, (w1, log ++ futs))
      end = (r, (w', log')) ->
      raised_from_log (match r with Raise e => Some e | Return _ => None end)
        log').
    { destruct (decide (no_fatal futs)) as [Hok|Hbad].
      - rewrite collect_benign by (by rewrite done_order_perm).
        apply IH. by apply Forall_app.
      - apply not_Forall_Exists in Hbad; [|apply _].
        assert (Hex : Exists (fun fut => benign fut.2 = false)
                        (done_order (w1, log ++ futs) futs)).
        { rewrite done_order_perm. eapply Exists_impl; [exact Hbad|].
          intros fut Hf. simpl in Hf. by destruct (benign fut.2). }
        destruct (collect_fatal _ st Hex) as (y & e & -> & Hin & Hf).
        intros [= <- <- <-]. right. exists y, e. split; [done|].
        split; [|done]. rewrite done_order_perm in Hin.
        apply elem_of_app. by right. }
    rewrite Hsub.
    destruct chunk as [|x chunk]; [exact Hrun|].
    destruct (exc_bound st); [exact Hrun|exact Hnone].
Qed.

Lemma thread_attempt_get_logged data w log r w' log' :
  no_fatal log ->
  thread_attempt_get (logged func) max_workers done_order data (w, log)
    = (r, (w', log')) ->
  raised_from_log (match r with Raise e => Some e | Return _ => None end) log'.
Proof.
  intros Hlog. unfold thread_attempt_get.
  destruct (max_workers <=? 0); [intros [= <- <- <-]; by left|].
  destruct (_chunks data max_workers) as [chunks|e];
    [|intros [= <- <- <-]; by left].
  destruct (run_chunks _ _ chunks _ _) as [r1 [w1 log1]] eqn:Hrun.
  apply run_chunks_logged in Hrun; [|done].
  destruct r1; intros [= <- <- <-]; exact Hrun.
Qed.

Lemma retry_loop_logged fuel res failed w log r w' log' :
  no_fatal log ->
  retry_loop (logged func) max_workers done_order fuel res failed (w, log)
    = (r, (w', log')) ->
  raised_from_log (match r with Some (Raise e) => Some e | _ => None end) log'.
Proof.
  revert res failed w log.
  induction fuel as [|fuel IH]; intros res failed w log Hlog;
    destruct failed as [|x failed]; simpl;
    try (intros [= <- <- <-]; by left).
  destruct (thread_attempt_get _ _ _ _ _) as [r1 [w1 log1]] eqn:Hpass.
  apply thread_attempt_get_logged in Hpass; [|done].
  destruct r1 as [[new_results failed']|e].
  - destruct Hpass as [Hlog1|(? & ? & ? & _)]; [|done]. by apply IH.
  - intros [= <- <- <-]. exact Hpass.
Qed.

(** C8.  Run the engine on an observed [func].  If any call made during
    the run raised an error [e] that is neither a 404 nor a 429, then the
    run has ended (fuel was not the limit) by raising to the caller a fatal
    error that [func] raised; no result list is returned.  When [e] is the
    only fatal error [func] raised, it is [e] that is propagated. *)
Theorem fatal_error_propagates fuel data w r w' log :
  thread (logged func) max_workers done_order fuel data (w, [])
    = (r, (w', log)) ->
  forall x e,
    (x, Fails e) ∈ log -> benign (V := V) (Fails e) = false ->
    exists y e',
      r = Some (Raise e')
      /\ (y, Fails e') ∈ log /\ benign (V := V) (Fails e') = false
      /\ ((forall z e2, (z, Fails e2) ∈ log ->
             benign (V := V) (Fails e2) = false -> e2 = e) -> e' = e).
Proof.
  intros Hrun x e Hin Hfatal.
  assert (Hraised :
    raised_from_log (match r with Some (Raise e) => Some e | _ => None end)
      log).
  { unfold thread in Hrun.
    destruct (thread_attempt_get _ _ _ _ _) as [r1 [w1 log1]] eqn:Hpass.
    apply thread_attempt_get_logged in Hpass; [|by constructor].
    destruct r1 as [[res failed]|e1].
    - destruct Hpass as [Hlog1|(? & ? & ? & _)]; [|done].
      by apply retry_loop_logged in Hrun.
    - injection Hrun as <- <- <-. exact Hpass. }
  destruct Hraised as [Hnone|(y & e' & He' & Hin' & Hfatal')].
  - unfold no_fatal in Hnone. rewrite Forall_forall in Hnone.
    apply Hnone in Hin. destruct (eq_true_false_abs _ Hin Hfatal).
  - exists y, e'. destruct r as [[res|e1]|]; try discriminate.
    injection He' as ->. repeat split; eauto.
Qed.
End FatalErrors.

(** C8 where the second of three items answers with status 500. *)
Lemma fatal_error_propagates_witness :
  exists y e',
    Some (Raise (A := list nat) (HTTPError 500)) = Some (Raise e')
    /\ (y, Fails e') ∈ [(1%nat, Ok 1%nat); (2%nat, Fails (HTTPError 500))]
    /\ benign (V := nat) (Fails e') = false
    /\ ((forall z e2,
           (z, Fails e2)
           ∈ [(1%nat, Ok 1%nat); (2%nat, Fails (HTTPError 500))] ->
           benign (V := nat) (Fails e2) = false -> e2 = HTTPError 500) ->
        e' = HTTPError 500).
Proof.
  apply (fatal_error_propagates
           (fun (x : nat) (w : unit) =>
              (if Nat.eqb x 2 then Fails (HTTPError 500) else Ok x, w))
           2 (fun _ futs => reverse futs)
           (fun _ futs => reverse_Permutation futs)
           0 [1; 2; 3]%nat tt (Some (Raise (HTTPError 500))) tt
           [(1%nat, Ok 1%nat); (2%nat, Fails (HTTPError 500))]
           eq_refl 2%nat (HTTPError 500)).
  - apply list_elem_of_here || (apply list_elem_of_further, list_elem_of_here).
  - reflexivity.
Defined.

Section Retry.
Context {Item V : Type} `{EqDecision Item}.
Variable beh : Item -> nat -> outcome V.
Variable max_workers : Z.
Variable done_order :
  (Item -> nat) -> list (Item * outcome V) -> list (Item * outcome V).
Variable N : Item -> nat.

Hypothesis workers_positive : 0 < max_workers.
Hypothesis done_order_perm : forall w futs, done_order w futs ≡ₚ futs.

Implicit Types (P : list Item) (w : Item -> nat)
  (futs : list (Item * outcome V)).
Local Open Scope nat_scope.

(** One chunk submitted to a scripted service from the counters [w]: item
    [y] receives exactly the invocations numbered from [w y] up to the new
    counter [w' y], and at least one if it occurs in the chunk. *)
Lemma submit_all_scripted P w :
  exists futs w',
    submit_all (scripted beh) P w = (futs, w')
    /\ length futs = length P
    /\ (forall y, w y <= w' y)
    /\ (forall y, y ∈ P -> w y < w' y)
    /\ (forall y o, (y, o) ∈ futs ->
          y ∈ P /\ exists n, w y <= n < w' y /\ o = beh y n)
    /\ (forall y n, w y <= n < w' y -> (y, beh y n) ∈ futs).
Proof.
  revert w. induction P as [|x P IH]; intros w.
  - exists [], w. split; [done|]. split; [done|]. split; [done|].
    split; [by intros y Hy%not_elem_of_nil|].
    split; [by intros y o Hy%not_elem_of_nil|]. intros y n Hn. lia.
  - cbn [submit_all scripted].
    destruct (IH (<[x := S (w x)]> w))
      as (futs & w' & -> & Hlen & Hmono & Hlt & Hsound & Hcompl).
    assert (Hw1 : forall y, w y <= <[x := S (w x)]> w y).
    { intros y. destruct (decide (x = y)) as [->|Hne].
      - rewrite fn_lookup_insert. lia.
      - by rewrite fn_lookup_insert_ne. }
    assert (Hx : w x < w' x).
    { specialize (Hmono x). rewrite fn_lookup_insert in Hmono. lia. }
    exists ((x, beh x (w x)) :: futs), w'. split; [done|].
    split; [cbn; by rewrite Hlen|].
    split; [intros y; specialize (Hw1 y); specialize (Hmono y); lia|].
    split; [|split].
    + intros y [->|Hy]%elem_of_cons; [done|].
      specialize (Hw1 y). specialize (Hlt y Hy). lia.
    + intros y o [[= -> ->]|Hin]%elem_of_cons.
      * split; [left|]. exists (w x). split; [lia|done].
      * destruct (Hsound y o Hin) as (Hy & n & Hn & ->).
        split; [by right|]. exists n. split; [|done].
        specialize (Hw1 y). lia.
    + intros y n Hn. destruct (decide (x = y /\ n = w x)) as [[-> ->]|Hne].
      * left.
      * right. apply Hcompl. split; [|lia].
        destruct (decide (x = y)) as [->|Hxy].
        -- rewrite fn_lookup_insert. destruct (decide (n = w y)); [tauto|lia].
        -- rewrite fn_lookup_insert_ne by done. lia.
Qed.

Lemma chunks_single P :
  P <> [] -> (Z.of_nat (length P) <= max_workers)%Z ->
  _chunks P max_workers = Return [P].
Proof.
  intros Hne Hlen. unfold _chunks.
  destruct (Z.eqb_spec max_workers 0) as [|_]; [lia|].
  destruct (Z.ltb_spec max_workers 0) as [|_]; [lia|].
  assert (0 < length P) by (destruct P; [done|simpl; lia]).
  unfold range_from_0.
  replace ((length P + Z.to_nat max_workers - 1) / Z.to_nat max_workers)
    with 1.
  - change (seq 0 1) with [0]. rewrite !fmap_cons, !fmap_nil. unfold slice.
    rewrite Nat.mul_0_l, Nat.add_0_l, Nat.sub_0_r, drop_0.
    by rewrite take_ge by lia.
  - apply (Nat.div_unique _ _ 1 (length P - 1)); lia.
Qed.

Lemma run_chunks_single (chunk : list Item) st w :
  exc_bound st = true ->
  run_chunks (scripted beh) done_order [chunk] st w =
    (collect (done_order (submit_all (scripted beh) chunk w).2
                (submit_all (scripted beh) chunk w).1) st,
     (submit_all (scripted beh) chunk w).2).
Proof.
  intros Hb. cbn [run_chunks]. rewrite Hb.
  destruct (submit_all (scripted beh) chunk w) as [futs w1]. cbn [fst snd].
  destruct (collect (done_order w1 futs) st); by destruct chunk.
Qed.

Lemma elem_of_rate_limited futs y :
  y ∈ rate_limited futs <-> (y, Fails (HTTPError 429)) ∈ futs.
Proof.
  unfold rate_limited. rewrite list_elem_of_omap. split.
  - intros ([z o] & Hin & Hz). cbn [fst snd] in Hz.
    destruct o as [v|[| | | |code|tag]]; try done.
    destruct (Z.eqb_spec code 429%Z) as [->|]; [|done].
    by injection Hz as ->.
  - intros Hin. by exists (y, Fails (HTTPError 429)).
Qed.

Lemma elem_of_successes futs v :
  v ∈ successes futs <-> exists y, (y, Ok v) ∈ futs.
Proof.
  unfold successes. rewrite list_elem_of_omap. split.
  - intros ([y o] & Hin & Ho). cbn [snd] in Ho.
    destruct o as [v'|e]; [|done]. injection Ho as ->. by exists y.
  - intros [y Hin]. by exists (y, Ok v).
Qed.

Lemma length_rate_limited futs : length (rate_limited futs) <= length futs.
Proof.
  unfold rate_limited. induction futs as [|fut futs IH]; [done|].
  cbn [omap list_omap length].
  destruct fut.2 as [v|[| | | |code|tag]]; try lia.
  destruct (code =? 429)%Z; cbn [length]; lia.
Qed.

Lemma settled_benign (o : outcome V) : settled o = true -> benign o = true.
Proof.
  destruct o as [v|[| | | |code|tag]]; try done. cbn. intros ->.
  apply orb_true_r.
Qed.

(** One pass over a pending list that fits in one chunk, when every
    invocation is benign. *)
Lemma pass_single_chunk P w :
  P <> [] -> (Z.of_nat (length P) <= max_workers)%Z ->
  (forall y n, y ∈ P -> benign (beh y n) = true) ->
  exists futs w',
    thread_attempt_get (scripted beh) max_workers done_order P w
      = (Return (successes futs, rate_limited futs), w')
    /\ length futs = length P
    /\ (forall y, w y <= w' y)
    /\ (forall y, y ∈ P -> w y < w' y)
    /\ (forall y o, (y, o) ∈ futs ->
          y ∈ P /\ exists n, w y <= n < w' y /\ o = beh y n)
    /\ (forall y n, w y <= n < w' y -> (y, beh y n) ∈ futs).
Proof.
  intros Hne Hlen Hben. unfold thread_attempt_get.
  destruct (Z.leb_spec max_workers 0) as [|_]; [lia|].
  rewrite chunks_single, run_chunks_single by done.
  destruct (submit_all_scripted P w)
    as (futs & w' & -> & Hlen' & Hmono & Hlt & Hsound & Hcompl).
  cbn [fst snd]. set (futs' := done_order w' futs).
  assert (Hperm : futs' ≡ₚ futs) by apply done_order_perm.
  rewrite collect_benign.
  - exists futs', w'. split; [done|]. split; [by rewrite Hperm|].
    split; [done|]. split; [done|]. split.
    + intros y o Hin. rewrite Hperm in Hin. by apply Hsound.
    + intros y n Hn. rewrite Hperm. by apply Hcompl.
  - apply Forall_forall. intros [y o] Hin. rewrite Hperm in Hin.
    destruct (Hsound y o Hin) as (Hy & n & _ & ->). by apply Hben.
Qed.

Lemma retry_loop_step fuel (res : list V) P w :
  P <> [] ->
  retry_loop (scripted beh) max_workers done_order (S fuel) res P w =
    match thread_attempt_get (scripted beh) max_workers done_order P w with
    | (Return (new_results, failed'), w1) =>
        retry_loop (scripted beh) max_workers done_order fuel
          (res ++ new_results) failed' w1
    | (Raise e, w1) => (Some (Raise e), w1)
    end.
Proof. by destruct P. Qed.

(** The retry loop ends when every pending item is at most [B] invocations
    away from the point [N] after which it is no longer rate-limited; the
    value [v] of invocation number [K] of [x] is in the result when it is
    there already or [x] is pending with at most [K] invocations made. *)
Lemma retry_loop_settles x K v :
  (forall n, n < K -> beh x n = Fails (HTTPError 429)) -> beh x K = Ok v ->
  forall B P w (res : list V),
    (Z.of_nat (length P) <= max_workers)%Z ->
    (forall y n, y ∈ P -> benign (beh y n) = true) ->
    (forall y n, y ∈ P -> N y <= n -> settled (beh y n) = true) ->
    (forall y, y ∈ P -> N y <= w y + B) ->
    v ∈ res \/ (x ∈ P /\ w x <= K) ->
    exists fuel res' w',
      retry_loop (scripted beh) max_workers done_order fuel res P w
        = (Some (Return res'), w')
      /\ v ∈ res'.
Proof.
  intros H429 HK.
  assert (Hpass : forall P w (res : list V),
    P <> [] -> (Z.of_nat (length P) <= max_workers)%Z ->
    (forall y n, y ∈ P -> benign (beh y n) = true) ->
    (forall y n, y ∈ P -> N y <= n -> settled (beh y n) = true) ->
    v ∈ res \/ (x ∈ P /\ w x <= K) ->
    exists new P' w',
      thread_attempt_get (scripted beh) max_workers done_order P w
        = (Return (new, P'), w')
      /\ length P' <= length P
      /\ (forall y, y ∈ P' -> y ∈ P /\ w y < w' y /\ w y < N y)
      /\ (v ∈ res ++ new \/ (x ∈ P' /\ w' x <= K))).
  { intros P w res Hne Hlen Hben Hset Hinv.
    destruct (pass_single_chunk P w Hne Hlen Hben)
      as (futs & w' & -> & Hlen' & Hmono & Hlt & Hsound & Hcompl).
    exists (successes futs), (rate_limited futs), w'. split; [done|].
    split; [rewrite <- Hlen'; apply length_rate_limited|]. split.
    - intros y Hy%elem_of_rate_limited.
      destruct (Hsound _ _ Hy) as (HyP & n & Hn & Hbeh).
      split; [done|]. split; [by apply Hlt|].
      destruct (decide (N y <= n)) as [Hge|]; [|lia].
      pose proof (Hset y n HyP Hge) as Hs. by rewrite <- Hbeh in Hs.
    - destruct Hinv as [Hv|[Hx Hwx]]; [left; apply elem_of_app; by left|].
      destruct (decide (K < w' x)) as [Hdone|Hmore].
      + left. apply elem_of_app. right. apply elem_of_successes. exists x.
        rewrite <- HK. apply Hcompl. lia.
      + right. split; [|lia]. apply elem_of_rate_limited.
        rewrite <- (H429 (w x)) by (specialize (Hlt x Hx); lia).
        apply Hcompl. specialize (Hlt x Hx). lia. }
  intros B. induction B as [|B IH]; intros P w res Hlen Hben Hset HB Hinv.
  - destruct (decide (P = [])) as [->|Hne].
    { exists 0, res, w. split; [done|].
      destruct Hinv as [|[Hx%not_elem_of_nil _]]; done. }
    destruct (Hpass P w res Hne Hlen Hben Hset Hinv)
      as (new & P' & w' & Hrun & _ & HP' & Hinv').
    assert (P' = []) as ->.
    { destruct P' as [|y P']; [done|].
      destruct (HP' y ltac:(left)) as (Hy & _ & Hlt).
      specialize (HB y Hy). lia. }
    exists 1, (res ++ new), w'. rewrite retry_loop_step, Hrun by done.
    split; [done|]. destruct Hinv' as [|[Hx%not_elem_of_nil _]]; done.
  - destruct (decide (P = [])) as [->|Hne].
    { exists 0, res, w. split; [done|].
      destruct Hinv as [|[Hx%not_elem_of_nil _]]; done. }
    destruct (Hpass P w res Hne Hlen Hben Hset Hinv)
      as (new & P' & w' & Hrun & Hlen' & HP' & Hinv').
    destruct (IH P' w' (res ++ new)) as (fuel & res' & w'' & Hloop & Hv).
    + lia.
    + intros y n Hy. apply Hben. by apply HP'.
    + intros y n Hy. apply Hset. by apply HP'.
    + intros y Hy. destruct (HP' y Hy) as (HyP & Hlt & _).
      specialize (HB y HyP). lia.
    + done.
    + exists (S fuel), res', w''. by rewrite retry_loop_step, Hrun by done.
Qed.

(** C2, amended.  Let the input fit in one chunk, let every invocation of
    the operation on an item of the input succeed, be not found (404) or be
    rate-limited (429), and let no item be rate-limited forever: from
    invocation number [N y] on, item [y] is not.  If an item [x] of the input
    is rate-limited on its first [K] invocations and succeeds with [v] on
    the next, the engine terminates and [v] is in the list it returns. *)
Theorem rate_limited_item_retried data x K v :
  (Z.of_nat (length data) <= max_workers)%Z ->
  (forall y n, y ∈ data -> benign (beh y n) = true) ->
  (forall y n, y ∈ data -> N y <= n -> settled (beh y n) = true) ->
  x ∈ data ->
  (forall n, n < K -> beh x n = Fails (HTTPError 429)) -> beh x K = Ok v ->
  exists fuel res w',
    thread (scripted beh) max_workers done_order fuel data (fun _ => 0)
      = (Some (Return res), w')
    /\ v ∈ res.
Proof.
  intros Hlen Hben Hset Hx H429 HK.
  assert (Hne : data <> []) by (intros ->; by apply not_elem_of_nil in Hx).
  destruct (retry_loop_settles x K v H429 HK (max_list (N <$> data)) data
              (fun _ => 0) [] Hlen Hben Hset)
    as (fuel & res & w' & Hloop & Hres).
  { intros y Hy. apply max_list_elem_of_le, list_elem_of_fmap. by exists y. }
  { right. split; [done|lia]. }
  destruct fuel as [|fuel]; [by destruct data|].
  rewrite retry_loop_step in Hloop by done.
  exists fuel, res, w'. split; [|done].
  unfold thread.
  by destruct (thread_attempt_get _ _ _ _ _) as [[[new failed]|e] w1].
Qed.
End Retry.

(** C2, amended, for the input [[1; 2; 1]]: item 1, which occurs twice, is
    rate-limited twice and then answers 10, item 2 answers 20 at once. *)
Lemma rate_limited_item_retried_witness :
  exists fuel res w',
    thread (scripted flaky_service) 100 (fun _ futs => reverse futs) fuel
      [1; 2; 1]%nat (fun _ => 0%nat)
      = (Some (Return res), w')
    /\ 10%nat ∈ res.
Proof.
  apply (rate_limited_item_retried flaky_service 100
           (fun _ futs => reverse futs) flaky_N
           ltac:(lia) (fun _ futs => reverse_Permutation futs)
           [1; 2; 1]%nat 1%nat 2%nat 10%nat).
  - simpl. lia.
  - intros y n _. unfold flaky_service.
    destruct (Nat.eqb y 1); [|reflexivity].
    destruct (Nat.ltb n 2); reflexivity.
  - intros y n _. unfold flaky_service, flaky_N.
    destruct (Nat.eqb y 1); [|reflexivity].
    intros Hn. apply Nat.ltb_ge in Hn. rewrite Hn. reflexivity.
  - left.
  - intros [|[|n]] Hn; [reflexivity|reflexivity|lia].
  - reflexivity.
Defined.

(** C2 as stated fails: item 1 is rate-limited twice and succeeds on its
    third invocation, but item 3 of the same input answers with status 500,
    so the call ends with that error and returns no list. *)
Lemma rate_limited_item_counterexample :
  (1%nat ∈ [1; 3]%nat
   /\ (forall n, (n < 2)%nat -> broken_service 1 n = Fails (HTTPError 429))
   /\ broken_service 1 2 = Ok 10%nat)
  /\ ~ exists fuel res w',
        thread (scripted broken_service) 100 (fun _ futs => futs) fuel
          [1; 3]%nat (fun _ => 0%nat) = (Some (Return res), w')
        /\ 10%nat ∈ res.
Proof.
  split.
  - split; [left|]. split; [|reflexivity].
    intros [|[|n]] Hn; [reflexivity|reflexivity|lia].
  - intros (fuel & res & w' & Hrun & _).
    assert (Heval : (thread (scripted broken_service) 100 (fun _ futs => futs)
                       fuel [1; 3]%nat (fun _ => 0%nat)).1
                    = Some (Raise (HTTPError 500))) by reflexivity.
    rewrite Hrun in Heval. discriminate.
Qed.

Section HandledErrorUnbindsExc.
Context {Item V W : Type}.
Variable func : Item -> W -> outcome V * W.
Variable done_order : W -> list (Item * outcome V) -> list (Item * outcome V).

Hypothesis done_order_perm : forall w futs, done_order w futs ≡ₚ futs.

(** The slip behind C3 in general: when the calls of a chunk all end in a
    value, a 404 or a 429, and not all in a value, the handler has unbound
    [exc], and a following non-empty chunk raises [NameError] before any of
    its items is submitted. *)
Lemma handled_error_unbinds_exc chunk next rest st w :
  exc_bound st = true -> next <> [] ->
  Forall (fun fut => benign fut.2 = true) (submit_all func chunk w).1 ->
  forallb (fun fut => is_ok fut.2) (submit_all func chunk w).1 = false ->
  run_chunks func done_order (chunk :: next :: rest) st w
  = (Raise NameError, (submit_all func chunk w).2).
Proof.
  intros Hb Hnext Hben Hnot. cbn [run_chunks]. rewrite Hb.
  destruct (submit_all func chunk w) as [futs w1]. cbn [fst snd] in *.
  assert (Hcol : collect (done_order w1 futs) st
                 = Return (mk_attempt
                             (results st ++ successes (done_order w1 futs))
                             (failed_requests st
                                ++ rate_limited (done_order w1 futs))
                             false)).
  { rewrite collect_benign by (by rewrite done_order_perm).
    by rewrite (forallb_perm _ _ _ (done_order_perm w1 futs)), Hnot,
      andb_false_r. }
  rewrite Hcol. destruct next as [|y next]; [done|]. by destruct chunk.
Qed.
End HandledErrorUnbindsExc.

(** C3 fails on the code.  With the default [max_workers = 100] and 101
    users of which the first is not found, the handler of the 404 unbinds
    [exc], and submitting the second chunk raises [NameError] to the caller.
    The same users without the last one fit in one chunk; then user 0 is
    dropped silently and the 99 others are returned. *)
Theorem not_found_breaks_next_chunk :
  (forall fuel,
     thread missing_first 100 (fun _ futs => futs) fuel (seq 0 101) tt
     = (Some (Raise NameError), tt))
  /\ (forall fuel,
       thread missing_first 100 (fun _ futs => futs) fuel (seq 0 100) tt
       = (Some (Return (seq 1 99)), tt)).
Proof. split; intros [|fuel]; vm_compute; reflexivity. Qed.

(** ** The record stream parser *)

Section ParserFacts.
Variable tags : gset str.
Variable max_games : limit.

Implicit Types (line : bytes) (lines : list bytes) (st : parser_state)
  (game : gmap str str).

(** The loop body in terms of [view]. *)
Lemma step_view line st :
  step tags max_games line st =
    let st1 := mk_parser (games_analyzed st) (l st + 1) (current_game st) in
    match view line with
    | BlankLine => Return (None, st1, Next)
    | BodyLine text =>
        if bool_decide (u "Movetext" ∈ tags) then
          match text with
          | None => Raise UnicodeDecodeError
          | Some text =>
              match store (u "Movetext") text st1 with
              | Return st2 => Return (None, st2, Next)
              | Raise e => Raise e
              end
          end
        else Return (None, st1, Next)
    | TagLine tag_name tag_value =>
        tag_line tags max_games tag_name tag_value st1
    | BadTagLine e => Raise e
    end.
Proof.
  unfold step, view. cbn zeta.
  destruct (bool_decide (line = [x0a])); [done|].
  destruct (negb (startswith_bracket line)); [done|].
  destruct (decode (drop 1 line)) as [line'|]; [|done].
  by destruct (split_tag line') as [[tag_name tag_value]|e].
Qed.

Lemma scan_app lines post st :
  scan tags max_games (lines ++ post) st =
    match scan tags max_games lines st with
    | (ys, Return (st1, Next)) =>
        let '(ys', r) := scan tags max_games post st1 in (ys ++ ys', r)
    | other => other
    end.
Proof.
  revert st. induction lines as [|line lines IH]; intros st; cbn [scan app].
  - by destruct (scan tags max_games post st).
  - destruct (step tags max_games line st) as [[[y st1] [|]]|e]; [|done|done].
    rewrite IH.
    destruct (scan tags max_games lines st1) as [ys [[st2 [|]]|e]];
      [|done|done].
    destruct (scan tags max_games post st2) as [ys' r].
    by rewrite app_assoc.
Qed.

Lemma step_inner line st game :
  inner_line tags line -> current_game st = Some game ->
  step tags max_games line st =
    Return (None,
            mk_parser (games_analyzed st) (l st + 1)
              (Some (field tags game line)),
            Next).
Proof.
  intros Hin Hgame. rewrite step_view. unfold inner_line, field in *.
  cbn zeta. destruct (view line) as [|text|tag_name tag_value|e].
  - by rewrite Hgame.
  - destruct (bool_decide_reflect (u "Movetext" ∈ tags)) as [Hm|Hm].
    + destruct (Hin Hm) as [text' ->]. unfold store. cbn. by rewrite Hgame.
    + rewrite Hgame. by destruct text.
  - unfold tag_line. rewrite bool_decide_eq_false_2 by done.
    unfold fetch_tag, store. cbn.
    destruct (bool_decide (tag_name ∈ tags)); by rewrite Hgame.
  - done.
Qed.

Lemma scan_inner lines post st game :
  Forall (inner_line tags) lines -> current_game st = Some game ->
  scan tags max_games (lines ++ post) st =
    scan tags max_games post
      (mk_parser (games_analyzed st) (l st + Z.of_nat (length lines))
         (Some (foldl (field tags) game lines))).
Proof.
  intros Hall. revert st game.
  induction Hall as [|line lines Hline _ IH]; intros st game Hgame.
  - cbn. rewrite Z.add_0_r. rewrite <- Hgame. by destruct st.
  - cbn [app scan]. rewrite (step_inner line st game Hline Hgame).
    rewrite (IH (mk_parser (games_analyzed st) (l st + 1)
                   (Some (field tags game line)))
               (field tags game line) eq_refl).
    cbn [games_analyzed l current_game foldl length option_list app].
    replace (l st + 1 + Z.of_nat (length lines))
      with (l st + Z.of_nat (S (length lines))) by lia.
    by destruct (scan tags max_games post _) as [ys r].
Qed.

(** The loop body on a boundary line, for a state in which a record is
    open whenever one has been started. *)
Lemma step_boundary line st y :
  boundary line ->
  (if 0 <? games_analyzed st then current_game st = Some y else True) ->
  step tags max_games line st =
    Return (if 0 <? games_analyzed st then Some y else None,
            mk_parser (games_analyzed st + 1) (l st + 1)
              (Some (if exceeds (games_analyzed st + 1) max_games
                     then ∅ else field tags ∅ line)),
            if exceeds (games_analyzed st + 1) max_games
            then Break else Next).
Proof.
  intros [tag_value Hview] Hopen. rewrite step_view. unfold field.
  rewrite Hview. cbn zeta. unfold tag_line.
  rewrite bool_decide_eq_true_2 by done. cbn.
  assert (Hy : (if 0 <? games_analyzed st
                then match current_game st with
                     | Some game => Return (Some game)
                     | None => Raise NameError
                     end
                else Return None)
               = Return (if 0 <? games_analyzed st then Some y else None)).
  { destruct (0 <? games_analyzed st); [by rewrite Hopen|done]. }
  rewrite Hy.
  destruct (exceeds (games_analyzed st + 1) max_games); [done|].
  unfold fetch_tag, store. cbn.
  by destruct (bool_decide (_ ∈ tags)).
Qed.

(** The first record of an archive, read from the initial state. *)
Lemma scan_first_record head inner post :
  boundary head -> Forall (inner_line tags) inner ->
  exceeds 1 max_games = false ->
  scan tags max_games (head :: inner ++ post) (mk_parser 0 0 None) =
    scan tags max_games post
      (mk_parser 1 (Z.of_nat (length (head :: inner)))
         (Some (build tags (head :: inner)))).
Proof.
  intros Hhead Hinner Hmax. cbn [scan].
  rewrite (step_boundary head (mk_parser 0 0 None) ∅ Hhead I).
  cbn [games_analyzed l current_game]. change (0 + 1) with 1.
  rewrite Hmax. change (0 <? 0) with false. cbn [option_list app].
  rewrite (scan_inner inner post (mk_parser _ _ _) (field tags ∅ head)
             Hinner eq_refl).
  cbn [games_analyzed l current_game length].
  replace (1 + Z.of_nat (length inner))
    with (Z.of_nat (S (length inner))) by lia.
  by destruct (scan tags max_games post _).
Qed.

(** A later record, read while the record [game] is open: [game] is
    yielded at the boundary line, and the loop is left there when the
    counter exceeds [max_games]. *)
Lemma scan_next_record head inner post st game :
  boundary head -> Forall (inner_line tags) inner ->
  0 < games_analyzed st -> current_game st = Some game ->
  scan tags max_games (head :: inner ++ post) st =
    if exceeds (games_analyzed st + 1) max_games
    then ([game],
          Return (mk_parser (games_analyzed st + 1) (l st + 1) (Some ∅),
                  Break))
    else
      let '(ys, r) :=
        scan tags max_games post
          (mk_parser (games_analyzed st + 1)
             (l st + Z.of_nat (length (head :: inner)))
             (Some (build tags (head :: inner)))) in
      (game :: ys, r).
Proof.
  intros Hhead Hinner Hpos Hgame. cbn [scan].
  assert (Hlt : (0 <? games_analyzed st) = true) by (apply Z.ltb_lt; lia).
  rewrite (step_boundary head st game Hhead) by (by rewrite Hlt).
  rewrite Hlt. destruct (exceeds (games_analyzed st + 1) max_games); [done|].
  rewrite (scan_inner inner post (mk_parser _ _ _) (field tags ∅ head)
             Hinner eq_refl).
  cbn [games_analyzed l current_game length option_list app].
  replace (l st + 1 + Z.of_nat (length inner))
    with (l st + Z.of_nat (S (length inner))) by lia.
  by destruct (scan tags max_games post _).
Qed.

Lemma scan_blank lines post st :
  Forall (fun line => view line = BlankLine) lines ->
  scan tags max_games (lines ++ post) st =
    scan tags max_games post
      (mk_parser (games_analyzed st) (l st + Z.of_nat (length lines))
         (current_game st)).
Proof.
  intros Hall. revert st.
  induction Hall as [|line lines Hline _ IH]; intros st.
  - cbn. rewrite Z.add_0_r. by destruct st.
  - cbn [app scan]. rewrite step_view, Hline. cbv beta iota zeta.
    rewrite IH. cbn [games_analyzed l current_game length option_list app].
    replace (l st + 1 + Z.of_nat (length lines))
      with (l st + Z.of_nat (S (length lines))) by lia.
    by destruct (scan tags max_games post _) as [ys r].
Qed.

Lemma view_few_quotes line text :
  startswith_bracket line = true -> decode (drop 1 line) = Some text ->
  (length (quote_indices text) < 2)%nat ->
  view line = BadTagLine IndexError.
Proof.
  intros Hstart Hdec Hlen. unfold view.
  rewrite bool_decide_eq_false_2.
  - rewrite Hstart, Hdec. cbn. unfold split_tag.
    destruct (quote_indices text) as [|q0 [|q1 qs]]; [done|done|].
    cbn in Hlen. lia.
  - intros ->. discriminate.
Qed.

Lemma field_body game last text :
  view last = BodyLine (Some text) -> u "Movetext" ∈ tags ->
  field tags game last = <[u "Movetext" := text]> game.
Proof.
  intros Hlast Hm. unfold field.
  by rewrite Hlast, bool_decide_eq_true_2 by done.
Qed.

(** Body and blank lines before a body line leave no trace in the record. *)
Lemma foldl_field_body game body last text :
  Forall body_or_blank body -> view last = BodyLine (Some text) ->
  u "Movetext" ∈ tags ->
  foldl (field tags) game (body ++ [last]) = <[u "Movetext" := text]> game.
Proof.
  intros Hbody Hlast Hm. rewrite foldl_app. cbn [foldl].
  rewrite (field_body _ last text) by done.
  revert game. induction Hbody as [|line body Hline _ IH]; intros game.
  - done.
  - cbn [foldl]. rewrite IH. unfold field.
    destruct Hline as [->|[text' ->]]; [done|].
    rewrite bool_decide_eq_true_2 by done. apply insert_insert_eq.
Qed.

Lemma foldl_field_blank game blanks :
  Forall (fun line => view line = BlankLine) blanks ->
  foldl (field tags) game blanks = game.
Proof.
  induction 1 as [|line blanks Hline _ IH]; [done|].
  cbn [foldl]. unfold field at 2. by rewrite Hline.
Qed.

Lemma body_or_blank_inner line : body_or_blank line -> inner_line tags line.
Proof.
  unfold inner_line. intros [->|[text ->]]; [done|]. by eexists.
Qed.
End ParserFacts.

(** For every archive of exactly two records and no limit, only the first
    record is yielded: the loop ends with the second record still open and
    nothing yields it. *)
Lemma two_records_yield_one tags r1 r2 :
  record_lines tags r1 -> record_lines tags r2 ->
  get_game_data_lichess tags Inf (r1 ++ r2)
  = ([build tags r1], Return (Z.of_nat (length r1 + length r2))).
Proof.
  intros (h1 & in1 & -> & Hh1 & Hin1) (h2 & in2 & -> & Hh2 & Hin2).
  unfold get_game_data_lichess. rewrite <- app_comm_cons.
  rewrite scan_first_record by done.
  rewrite <- (app_nil_r in2).
  erewrite scan_next_record; [|done|done|cbn; lia|reflexivity].
  cbn [exceeds scan l games_analyzed].
  do 2 f_equal. rewrite app_nil_r. lia.
Qed.

(** C7.  For every archive that begins with three records, whatever follows
    them, parsing with [max_games = 1] yields exactly one record, the first:
    it is yielded at the boundary line of the second record, where the
    counter becomes 2 and the loop is left. *)
Theorem max_games_one_yields_first tags r1 r2 r3 rest :
  record_lines tags r1 -> record_lines tags r2 -> record_lines tags r3 ->
  get_game_data_lichess tags (Int 1) (r1 ++ r2 ++ r3 ++ rest)
  = ([build tags r1], Return (Z.of_nat (length r1) + 1)).
Proof.
  intros (h1 & in1 & -> & Hh1 & Hin1) (h2 & in2 & -> & Hh2 & Hin2) _.
  unfold get_game_data_lichess. rewrite <- !app_comm_cons.
  rewrite scan_first_record by done.
  erewrite scan_next_record; [|done|done|cbn; lia|reflexivity].
  reflexivity.
Qed.

(** C1 fails on the code.  On the two-record archive of the concrete
    scenario, with tags [Event] and [Result] and no limit, the parser yields
    one mapping only, that of the first record; the five lines are read and
    the second record, still open at the end of the stream, is never
    yielded. *)
Theorem scenario_yields_one_record :
  get_game_data_lichess {[ u "Event"; u "Result" ]} Inf scenario
  = ([ {[ u "Event" := u "Rated Blitz game"; u "Result" := u "1-0" ]} ],
     Return 5).
Proof. vm_compute. reflexivity. Qed.

(** C5 as stated fails: a [Result] line without closing quotation mark ends
    the generator with [IndexError], the error of the list indexing; no
    error carrying a line number exists, and the open record is lost. *)
Lemma few_quotes_counterexample :
  get_game_data_lichess {[ u "Event"; u "Result" ]} Inf missing_quote
  = ([], Raise IndexError).
Proof. vm_compute. reflexivity. Qed.

(** C5, amended.  When the loop reaches a line that starts with a bracket,
    is valid UTF-8 and has fewer than two quotation marks, the generator
    ends with [IndexError], after the records yielded before that line. *)
Theorem few_quotes_index_error tags max_games pre line post ys st text :
  scan tags max_games pre (mk_parser 0 0 None) = (ys, Return (st, Next)) ->
  startswith_bracket line = true ->
  decode (drop 1 line) = Some text ->
  (length (quote_indices text) < 2)%nat ->
  get_game_data_lichess tags max_games (pre ++ line :: post)
  = (ys, Raise IndexError).
Proof.
  intros Hpre Hstart Hdec Hlen. unfold get_game_data_lichess.
  rewrite scan_app, Hpre. cbn [scan].
  rewrite step_view, (view_few_quotes line text) by done.
  cbn. by rewrite app_nil_r.
Qed.

(** C9.  When only blank lines precede it, a tag line with another name
    than [Event] that is in [tags], or a body line while [Movetext] is in
    [tags], ends the generator with [NameError]: [current_game] is not bound
    before the first boundary line.  Nothing is yielded. *)
Theorem field_before_first_boundary tags max_games pre line post :
  Forall (fun x => view x = BlankLine) pre ->
  (exists tag_name tag_value,
     view line = TagLine tag_name tag_value
     /\ tag_name <> u "Event" /\ tag_name ∈ tags)
  \/ (exists text, view line = BodyLine (Some text) /\ u "Movetext" ∈ tags) ->
  get_game_data_lichess tags max_games (pre ++ line :: post)
  = ([], Raise NameError).
Proof.
  intros Hpre Hline. unfold get_game_data_lichess.
  rewrite scan_blank by done. cbn [scan games_analyzed l current_game].
  rewrite step_view. cbv zeta.
  destruct Hline as [(tag_name & tag_value & -> & Hne & Hin)
                    |(text & -> & Hin)].
  - unfold tag_line, fetch_tag, store.
    rewrite bool_decide_eq_false_2, bool_decide_eq_true_2 by done. done.
  - rewrite bool_decide_eq_true_2 by done. done.
Qed.

(** A state of the loop that was reached from the start: the counter is
    not negative, and a record is open once a boundary line has been read. *)
Lemma step_keeps_open tags max_games line st y st' c :
  step tags max_games line st = Return (y, st', c) ->
  0 <= games_analyzed st
  /\ (0 < games_analyzed st -> is_Some (current_game st)) ->
  0 <= games_analyzed st'
  /\ (0 < games_analyzed st' -> is_Some (current_game st')).
Proof.
  intros Hstep [Hge Hopen]. revert Hstep. rewrite step_view. cbv zeta.
  destruct (view line) as [|text|tag_name tag_value|e]; [| | |done].
  - by intros [= <- <- <-].
  - destruct (bool_decide (u "Movetext" ∈ tags)).
    + destruct text as [text|]; [|done]. unfold store.
      cbn [games_analyzed l current_game].
      destruct (current_game st) as [game|]; [|done].
      intros [= <- <- <-]. cbn. split; [done|]. by eexists.
    + by intros [= <- <- <-].
  - unfold tag_line, fetch_tag, store. cbn [games_analyzed l current_game].
    destruct (bool_decide (tag_name = u "Event")).
    + destruct (0 <? games_analyzed st);
        [destruct (current_game st) as [game|]; [|done]|];
        (destruct (exceeds _ max_games);
         [|destruct (bool_decide (_ ∈ tags))]);
        intros [= <- <- <-]; cbn; (split; [lia|]); by eexists.
    + destruct (bool_decide (tag_name ∈ tags)).
      * destruct (current_game st) as [game|]; [|done].
        intros [= <- <- <-]. cbn. split; [done|]. by eexists.
      * by intros [= <- <- <-].
Qed.

Lemma scan_keeps_open tags max_games lines : forall st ys st' c,
  scan tags max_games lines st = (ys, Return (st', c)) ->
  0 <= games_analyzed st
  /\ (0 < games_analyzed st -> is_Some (current_game st)) ->
  0 <= games_analyzed st'
  /\ (0 < games_analyzed st' -> is_Some (current_game st')).
Proof.
  induction lines as [|line lines IH]; intros st ys st' c; cbn [scan].
  - by intros [= _ <- _].
  - destruct (step tags max_games line st) as [[[y st1] c1]|e] eqn:Hstep;
      [|done].
    intros Hscan Hst.
    pose proof (step_keeps_open _ _ _ _ _ _ _ Hstep Hst) as Hst1.
    destruct c1.
    + destruct (scan tags max_games lines st1) as [ys1 r1] eqn:Hrest.
      injection Hscan as _ ->. by apply (IH st1 ys1 st' c).
    + by injection Hscan as _ <- _.
Qed.

(** C10.  A record anywhere in the archive: the lines [pre] before it have
    been read without an exception and without leaving the loop, yielding
    [ys] and ending in the state [st]; the record is not the one at which
    the limit stops the loop.  Let the record end with body and blank lines,
    a last body line and blank lines, let another boundary line follow, and
    let [Movetext] be in [tags].  Then the next mapping yielded after the
    one that was open before the record is the mapping of this record, and
    it holds under [Movetext] the right-trimmed text of the last body line
    only: it is the mapping of the lines before the body with that one
    entry, so that nothing of the earlier body lines is kept. *)
Theorem movetext_keeps_last_line tags max_games pre ys st head inner body
    last blanks next rest text :
  scan tags max_games pre (mk_parser 0 0 None) = (ys, Return (st, Next)) ->
  exceeds (games_analyzed st + 1) max_games = false ->
  boundary head -> Forall (inner_line tags) inner ->
  Forall body_or_blank body -> view last = BodyLine (Some text) ->
  Forall (fun line => view line = BlankLine) blanks ->
  boundary next -> u "Movetext" ∈ tags ->
  exists game ys' r,
    get_game_data_lichess tags max_games
      (pre ++ head :: inner ++ body ++ last :: blanks ++ next :: rest)
    = (ys ++ option_list (if 0 <? games_analyzed st
                          then current_game st else None)
          ++ game :: ys', r)
    /\ game !! u "Movetext" = Some text
    /\ game = <[u "Movetext" := text]> (build tags (head :: inner)).
Proof.
  intros Hpre Hmax Hhead Hinner Hbody Hlast Hblanks Hnext Hm.
  destruct (scan_keeps_open _ _ _ _ _ _ _ Hpre) as [Hge Hopen];
    [cbn; split; [done|lia]|].
  assert (Hgame : foldl (field tags) (field tags ∅ head)
                    (inner ++ body ++ last :: blanks)
                  = <[u "Movetext" := text]> (build tags (head :: inner))).
  { unfold build. cbn [foldl]. rewrite foldl_app.
    change (last :: blanks) with ([last] ++ blanks).
    rewrite app_assoc, (foldl_app _ (body ++ [last])).
    rewrite (foldl_field_body tags _ body last text) by done.
    by rewrite foldl_field_blank. }
  assert (Hall : Forall (inner_line tags) (inner ++ body ++ last :: blanks)).
  { apply Forall_app. split; [done|]. apply Forall_app. split.
    - eapply Forall_impl; [exact Hbody|]. apply body_or_blank_inner.
    - apply Forall_cons. split.
      + apply body_or_blank_inner. right. by eexists.
      + eapply Forall_impl; [exact Hblanks|].
        intros line Hline. apply body_or_blank_inner. by left. }
  exists (<[u "Movetext" := text]> (build tags (head :: inner))).
  assert (Hprev : exists y,
            if 0 <? games_analyzed st then current_game st = Some y
            else True).
  { destruct (0 <? games_analyzed st) eqn:Hpos; [|by exists ∅].
    apply Z.ltb_lt in Hpos. destruct (Hopen Hpos) as [y Hy]. by exists y. }
  destruct Hprev as [y Hy].
  assert (Hyield : (if 0 <? games_analyzed st then current_game st else None)
                   = (if 0 <? games_analyzed st then Some y else None)).
  { by destruct (0 <? games_analyzed st). }
  unfold get_game_data_lichess. rewrite scan_app, Hpre. cbv beta iota zeta.
  replace (head :: inner ++ body ++ last :: blanks ++ next :: rest)
    with (head :: (inner ++ body ++ last :: blanks) ++ next :: rest)
    by (by rewrite <- !app_assoc).
  cbn [scan]. rewrite (step_boundary tags max_games head st y Hhead Hy).
  rewrite Hmax, Hyield.
  rewrite (scan_inner tags max_games _ (next :: rest) (mk_parser _ _ _)
             (field tags ∅ head) Hall eq_refl).
  cbn [games_analyzed l current_game]. rewrite Hgame. cbn [scan].
  assert (Hpos : (0 <? games_analyzed st + 1) = true)
    by (apply Z.ltb_lt; lia).
  rewrite (step_boundary tags max_games next (mk_parser _ _ _)
             (<[u "Movetext" := text]> (build tags (head :: inner))) Hnext)
    by (cbn [games_analyzed current_game]; by rewrite Hpos).
  cbn [games_analyzed l current_game]. rewrite Hpos.
  destruct (exceeds (games_analyzed st + 1 + 1) max_games).
  - eexists _, _. cbn [option_list app].
    split_and!; [reflexivity|apply lookup_insert_eq|done].
  - destruct (scan tags max_games rest _) as [ys' [[st' c]|e]];
      eexists _, _; cbn [option_list app];
      (split_and!; [reflexivity|apply lookup_insert_eq|done]).
Qed.

(** C7 at an archive of three records. *)
Lemma max_games_one_yields_first_witness :
  get_game_data_lichess {[ u "Event"; u "Result" ]} (Int 1)
    (game1 ++ game2 ++ game3 ++ [])
  = ([build {[ u "Event"; u "Result" ]} game1],
     Return (Z.of_nat (length game1) + 1)).
Proof.
  apply (max_games_one_yields_first {[ u "Event"; u "Result" ]}
           game1 game2 game3 []); concrete_record.
Defined.

(** C5, amended, at the archive [missing_quote], line by line. *)
Lemma few_quotes_index_error_witness :
  get_game_data_lichess {[ u "Event"; u "Result" ]} Inf
    ([b (tag "Event" "Rated Blitz game")]
       ++ b ("[Result " ++ quote ++ "1-0]" ++ newline) :: [])
  = ([], Raise IndexError).
Proof.
  eapply (few_quotes_index_error {[ u "Event"; u "Result" ]} Inf
            [b (tag "Event" "Rated Blitz game")]
            (b ("[Result " ++ quote ++ "1-0]" ++ newline)) [] []).
  - reflexivity.
  - reflexivity.
  - reflexivity.
  - vm_compute. lia.
Defined.

(** C9 at the archive [headless]: a blank line, then a [Result] line. *)
Lemma field_before_first_boundary_witness :
  get_game_data_lichess {[ u "Event"; u "Result" ]} Inf
    ([b newline] ++ b (tag "Result" "1-0")
       :: [b (tag "Event" "Rated Blitz game")])
  = ([], Raise NameError).
Proof.
  apply (field_before_first_boundary {[ u "Event"; u "Result" ]} Inf
           [b newline] (b (tag "Result" "1-0"))
           [b (tag "Event" "Rated Blitz game")]).
  - constructor; [reflexivity|constructor].
  - left. exists (u "Result"), (u "1-0"). split; [reflexivity|]. split.
    + intros Heq. vm_compute in Heq. discriminate Heq.
    + apply (bool_decide_unpack _). vm_compute. exact I.
Defined.

(** C10 at the second record of an archive of three records; both the
    first and the second record have a body of two lines. *)
Lemma movetext_keeps_last_line_witness :
  exists game ys' r,
    get_game_data_lichess {[ u "Event"; u "Result"; u "Movetext" ]} Inf
      (game1
         ++ b (tag "Event" "Rated Bullet game")
         :: [b (tag "Result" "0-1"); b newline]
         ++ [b ("1. d4 d5 2. c4 e6" ++ newline)]
         ++ b ("3. Nc3 Nf6 0-1" ++ newline) :: [b newline]
         ++ b (tag "Event" "Rated Classical game")
         :: [b (tag "Result" "1/2-1/2")])
    = ([] ++ option_list
               (Some (build {[ u "Event"; u "Result"; u "Movetext" ]} game1))
          ++ game :: ys', r)
    /\ game !! u "Movetext" = Some (u "3. Nc3 Nf6 0-1")
    /\ game = <[u "Movetext" := u "3. Nc3 Nf6 0-1"]>
                (build {[ u "Event"; u "Result"; u "Movetext" ]}
                   (b (tag "Event" "Rated Bullet game")
                      :: [b (tag "Result" "0-1"); b newline])).
Proof.
  apply (movetext_keeps_last_line
           {[ u "Event"; u "Result"; u "Movetext" ]} Inf game1 []
           (mk_parser 1 6
              (Some (build {[ u "Event"; u "Result"; u "Movetext" ]} game1)))
           (b (tag "Event" "Rated Bullet game"))
           [b (tag "Result" "0-1"); b newline]
           [b ("1. d4 d5 2. c4 e6" ++ newline)]
           (b ("3. Nc3 Nf6 0-1" ++ newline)) [b newline]
           (b (tag "Event" "Rated Classical game"))
           [b (tag "Result" "1/2-1/2")]
           (u "3. Nc3 Nf6 0-1")).
  - vm_compute. reflexivity.
  - reflexivity.
  - concrete_boundary.
  - repeat (constructor; [concrete_inner_line|]). constructor.
  - constructor; [|constructor]. right. eexists. reflexivity.
  - reflexivity.
  - constructor; [reflexivity|constructor].
  - concrete_boundary.
  - apply (bool_decide_unpack _). vm_compute. exact I.
Defined.

(** * Further properties *)

(** ** The chunker: number and size of the chunks *)

(** For a positive chunk size the chunker yields [ceil(len / K)] chunks and
    none of them is empty; in particular nothing is yielded for the empty
    list. *)
Theorem chunks_count_nonempty {A : Type} (S : list A) (K : Z) :
  0 < K ->
  exists chunks,
    _chunks S K = Return chunks
    /\ length chunks
       = ((length S + Z.to_nat K - 1) / Z.to_nat K)%nat
    /\ Forall (fun c => c <> []) chunks
    /\ (S = [] -> chunks = []).
Proof.
  intros HK. unfold _chunks.
  destruct (Z.eqb_spec K 0) as [|_]; [lia|].
  destruct (Z.ltb_spec K 0) as [|_]; [lia|].
  set (k := Z.to_nat K). assert (Hk : (0 < k)%nat) by (unfold k; lia).
  eexists; split; [reflexivity|].
  destruct (range_from_0_count (length S) k Hk) as [Hup Hlow].
  split; [|split].
  - unfold range_from_0. by rewrite !length_fmap, length_seq.
  - apply Forall_forall. intros c Hc.
    apply list_elem_of_lookup in Hc as [i Hi].
    apply chunks_lookup in Hi as [-> Hi]; [|done].
    intros Hnil. apply (f_equal length) in Hnil.
    rewrite length_take, length_drop in Hnil. cbn in Hnil.
    destruct Hlow as [Hz|Hlow]; [lia|]. nia.
  - intros ->. unfold range_from_0. cbn [length].
    rewrite Nat.add_0_l, Nat.div_small by lia. done.
Qed.

(** The chunker on ten items cut by four. *)
Lemma chunks_count_nonempty_witness :
  exists chunks,
    _chunks (seq 0 10) 4 = Return chunks
    /\ length chunks = ((length (seq 0 10) + Z.to_nat 4 - 1) / Z.to_nat 4)%nat
    /\ Forall (fun c => c <> []) chunks
    /\ (seq 0 10 = [] -> chunks = []).
Proof. apply (chunks_count_nonempty (seq 0 10) 4). lia. Defined.

Lemma chunks_nil {A : Type} (K : Z) : 0 < K -> _chunks (@nil A) K = Return [].
Proof.
  intros HK. unfold _chunks.
  destruct (Z.eqb_spec K 0) as [|_]; [lia|].
  destruct (Z.ltb_spec K 0) as [|_]; [lia|].
  unfold range_from_0. cbn [length].
  rewrite Nat.add_0_l, Nat.div_small by lia. done.
Qed.

(** ** The fetch engine: the calls it makes *)

Section CollectReturn.
Context {Item V : Type}.
Implicit Types (futs : list (Item * outcome V)) (st : attempt_state Item V).

Lemma collect_return futs st st' :
  collect futs st = Return st' ->
  results st' = results st ++ successes futs
  /\ failed_requests st' = failed_requests st ++ rate_limited futs.
Proof.
  revert st. unfold successes, rate_limited.
  induction futs as [|[y o] futs IH]; intros st; cbn [collect].
  - intros [= <-]. by rewrite !app_nil_r.
  - destruct o as [v|e].
    + intros (-> & ->)%IH. cbn. by rewrite <- app_assoc.
    + destruct e as [| | | |code|tag]; try done. cbn.
      destruct (code =? 429).
      * intros (-> & ->)%IH. cbn. by rewrite <- app_assoc.
      * destruct (code =? 404); [|done]. cbn. by intros (-> & ->)%IH.
Qed.

Lemma rate_limited_subseteq futs y : y ∈ rate_limited futs -> y ∈ futs.*1.
Proof.
  unfold rate_limited. rewrite list_elem_of_omap.
  intros ([z o] & Hin & Hz). cbn [fst snd] in Hz.
  destruct o as [v|[| | | |code|tag]]; try done.
  destruct (code =? 429); [|done]. injection Hz as <-.
  apply list_elem_of_fmap. by exists (z, Fails (HTTPError code)).
Qed.

Lemma successes_app futs1 futs2 :
  successes (futs1 ++ futs2) = successes futs1 ++ successes futs2.
Proof. unfold successes. apply omap_app. Qed.

Lemma rate_limited_app futs1 futs2 :
  rate_limited (futs1 ++ futs2) = rate_limited futs1 ++ rate_limited futs2.
Proof. unfold rate_limited. apply omap_app. Qed.
End CollectReturn.

Section EngineCalls.
Context {Item V W : Type}.
Variable func : Item -> W -> outcome V * W.
Variable max_workers : Z.
Variable done_order :
  W * list (Item * outcome V) ->
  list (Item * outcome V) -> list (Item * outcome V).

Hypothesis done_order_perm : forall w futs, done_order w futs ≡ₚ futs.

Implicit Types (log futs : list (Item * outcome V)).

Lemma submit_all_logged_items chunk w log :
  exists futs w',
    submit_all (logged func) chunk (w, log) = (futs, (w', log ++ futs))
    /\ futs.*1 = chunk.
Proof.
  revert w log. induction chunk as [|x chunk IH]; intros w log; simpl.
  - exists [], w. by rewrite app_nil_r.
  - unfold logged at 1. simpl. destruct (func x w) as [o w1].
    destruct (IH w1 (log ++ [(x, o)])) as (futs & w' & -> & Hfuts).
    exists ((x, o) :: futs), w'. rewrite <- app_assoc. cbn. by rewrite Hfuts.
Qed.

Lemma run_chunks_calls chunks st w log st' w' log' :
  run_chunks (logged func) done_order chunks st (w, log)
    = (Return st', (w', log')) ->
  exists futs,
    log' = log ++ futs /\ futs.*1 = concat chunks
    /\ results st' ≡ₚ results st ++ successes futs
    /\ failed_requests st' ≡ₚ failed_requests st ++ rate_limited futs.
Proof.
  revert st w log. induction chunks as [|chunk chunks IH]; intros st w log.
  - cbn. intros [= <- <- <-]. exists []. by rewrite !app_nil_r.
  - cbn [run_chunks].
    destruct (submit_all_logged_items chunk w log) as (futs & w1 & Hsub & Hfst).
    assert (Hrun :
      match collect (done_order (w1, log ++ futs) futs) st with
      | Return st1 => run_chunks (logged func) done_order chunks st1
                        (w1, log ++ futs)
      | Raise e => (Raise e, (w1, log ++ futs))
      end = (Return st', (w', log')) ->
      exists futs',
        log' = log ++ futs' /\ futs'.*1 = concat (chunk :: chunks)
        /\ results st' ≡ₚ results st ++ successes futs'
        /\ failed_requests st' ≡ₚ failed_requests st ++ rate_limited futs').
    { destruct (collect _ st) as [st1|e] eqn:Hcol; [|done].
      apply collect_return in Hcol as [Hres Hfail].
      intros (futs' & -> & Hfst' & Hres' & Hfail')%IH.
      exists (futs ++ futs'). rewrite app_assoc. split; [done|].
      split; [by rewrite fmap_app, Hfst, Hfst'|].
      pose proof (done_order_perm (w1, log ++ futs) futs) as Hperm.
      rewrite successes_app, rate_limited_app, Hres', Hfail', Hres, Hfail.
      rewrite (successes_perm _ _ Hperm), (rate_limited_perm _ _ Hperm).
      by rewrite <- !app_assoc. }
    rewrite Hsub. destruct chunk as [|x chunk]; [exact Hrun|].
    destruct (exc_bound st); [exact Hrun|done].
Qed.

Lemma thread_attempt_get_calls data w log res failed w' log' :
  thread_attempt_get (logged func) max_workers done_order data (w, log)
    = (Return (res, failed), (w', log')) ->
  exists futs,
    log' = log ++ futs /\ futs.*1 = data
    /\ res ≡ₚ successes futs /\ failed ≡ₚ rate_limited futs.
Proof.
  unfold thread_attempt_get.
  destruct (Z.leb_spec max_workers 0) as [|Hpos]; [done|].
  destruct (chunks_concat data max_workers Hpos) as (chunks & -> & Hcat).
  destruct (run_chunks _ _ chunks _ _) as [[st1|e] [w1 log1]] eqn:Hrun;
    [|done].
  apply run_chunks_calls in Hrun as (futs & -> & Hfst & Hres & Hfail).
  intros [= <- <- <- <-]. exists futs. by rewrite Hcat in Hfst.
Qed.

Lemma retry_loop_calls fuel res failed w log res' w' log' :
  retry_loop (logged func) max_workers done_order fuel res failed (w, log)
    = (Some (Return res'), (w', log')) ->
  exists futs,
    log' = log ++ futs /\ res' ≡ₚ res ++ successes futs
    /\ (forall x, x ∈ futs.*1 -> x ∈ failed).
Proof.
  revert res failed w log.
  induction fuel as [|fuel IH]; intros res failed w log;
    destruct failed as [|x failed]; cbn [retry_loop];
    try (intros [= <- <- <-]; exists [];
         rewrite !app_nil_r; split; [done|]; split; [done|];
         by intros y Hy%not_elem_of_nil); try done.
  destruct (thread_attempt_get _ _ _ _ _)
    as [[[new failed']|e] [w1 log1]] eqn:Hpass; [|done].
  apply thread_attempt_get_calls in Hpass as (futs & -> & Hfst & Hnew & Hfail).
  intros (futs' & -> & Hres & Hin)%IH.
  exists (futs ++ futs'). rewrite app_assoc. split; [done|]. split.
  - by rewrite Hres, Hnew, successes_app, app_assoc.
  - intros y. rewrite fmap_app, elem_of_app, Hfst. intros [Hy|Hy]; [done|].
    apply Hin in Hy. rewrite Hfail in Hy.
    apply rate_limited_subseteq in Hy. by rewrite Hfst in Hy.
Qed.

(** When the engine returns a list, the list holds the values of the calls
    that succeeded, each once, and nothing else; every call was made on an
    item of the input, and no call failed fatally. *)
Theorem thread_returns_successful_calls fuel data w res w' log :
  thread (logged func) max_workers done_order fuel data (w, [])
    = (Some (Return res), (w', log)) ->
  res ≡ₚ successes log
  /\ (forall x o, (x, o) ∈ log -> x ∈ data)
  /\ (forall x o, (x, o) ∈ log -> benign o = true).
Proof.
  intros Hrun.
  assert (Hfatal : no_fatal log).
  { unfold thread in Hrun.
    destruct (thread_attempt_get _ _ _ _ _) as [r1 [w1 log1]] eqn:Hpass.
    apply (thread_attempt_get_logged func max_workers done_order
             done_order_perm) in Hpass; [|by constructor].
    destruct r1 as [[res1 failed]|e1]; [|done].
    destruct Hpass as [Hlog1|(? & ? & ? & _)]; [|done].
    apply (retry_loop_logged func max_workers done_order done_order_perm)
      in Hrun; [|done].
    by destruct Hrun as [|(? & ? & ? & _)]. }
  unfold thread in Hrun.
  destruct (thread_attempt_get _ _ _ _ _)
    as [[[res1 failed]|e] [w1 log1]] eqn:Hpass; [|done].
  apply thread_attempt_get_calls in Hpass as (futs & -> & Hfst & Hres & Hfail).
  apply retry_loop_calls in Hrun as (futs' & -> & Hres' & Hin).
  cbn [app] in *. split; [by rewrite Hres', Hres, successes_app|].
  split.
  - assert (Hitems : forall x, x ∈ (futs ++ futs').*1 -> x ∈ data).
    { intros x. rewrite fmap_app, elem_of_app, Hfst. intros [Hy|Hy]; [done|].
      apply Hin in Hy. rewrite Hfail in Hy.
      apply rate_limited_subseteq in Hy. by rewrite Hfst in Hy. }
    intros x o Hxo. apply Hitems, list_elem_of_fmap. by exists (x, o).
  - intros x o Hxo. unfold no_fatal in Hfatal. rewrite Forall_forall in Hfatal.
    by apply Hfatal in Hxo.
Qed.
End EngineCalls.

(** The engine on the observed service [missing_first]: three users, of
    which user 0 is not found. *)
Lemma thread_returns_successful_calls_witness :
  [1; 2]%nat ≡ₚ successes
                  [(0%nat, Fails (HTTPError 404)); (1%nat, Ok 1%nat);
                   (2%nat, Ok 2%nat)]
  /\ (forall x o,
        (x, o) ∈ [(0%nat, Fails (HTTPError 404)); (1%nat, Ok 1%nat);
                  (2%nat, Ok 2%nat)] -> x ∈ [0; 1; 2]%nat)
  /\ (forall x (o : outcome nat),
        (x, o) ∈ [(0%nat, Fails (HTTPError 404)); (1%nat, Ok 1%nat);
                  (2%nat, Ok 2%nat)] -> benign o = true).
Proof.
  apply (thread_returns_successful_calls missing_first 100
           (fun _ futs => futs) (fun _ futs => Permutation_refl futs)
           0 [0; 1; 2]%nat tt [1; 2]%nat tt
           [(0%nat, Fails (HTTPError 404)); (1%nat, Ok 1%nat);
            (2%nat, Ok 2%nat)]).
  reflexivity.
Defined.

Section PureService.
Context {Item V W : Type}.
Variable func : Item -> W -> outcome V * W.
Variable max_workers : Z.
Variable done_order : W -> list (Item * outcome V) -> list (Item * outcome V).
Variable out : Item -> outcome V.

Hypothesis workers_positive : 0 < max_workers.
Hypothesis done_order_perm : forall w futs, done_order w futs ≡ₚ futs.
Hypothesis func_pure : forall x w, (func x w).1 = out x.

Implicit Types (P data : list Item) (w : W).

Lemma submit_all_pure P w :
  (submit_all func P w).1 = (fun x => (x, out x)) <$> P.
Proof.
  revert w. induction P as [|x P IH]; intros w; cbn [submit_all]; [done|].
  pose proof (func_pure x w) as Hx. destruct (func x w) as [o w1].
  cbn [fst] in Hx. subst o. specialize (IH w1).
  destruct (submit_all func P w1) as [futs w2]. cbn [fst] in *.
  by rewrite IH.
Qed.

(** One pass over a list that fits in one chunk, all outcomes being
    benign. *)
Lemma pass_pure_single_chunk P w :
  P <> [] -> Z.of_nat (length P) <= max_workers ->
  Forall (fun x => benign (out x) = true) P ->
  exists futs,
    thread_attempt_get func max_workers done_order P w
      = (Return (successes futs, rate_limited futs), (submit_all func P w).2)
    /\ futs ≡ₚ (fun x => (x, out x)) <$> P.
Proof.
  intros Hne Hlen Hben. unfold thread_attempt_get.
  destruct (Z.leb_spec max_workers 0) as [|_]; [lia|].
  rewrite (chunks_single max_workers workers_positive P Hne Hlen).
  cbn [run_chunks exc_bound].
  pose proof (submit_all_pure P w) as Hfuts.
  destruct (submit_all func P w) as [futs w1]. cbn [fst snd] in *.
  assert (Hperm : done_order w1 futs ≡ₚ (fun x => (x, out x)) <$> P)
    by (by rewrite done_order_perm, Hfuts).
  exists (done_order w1 futs). split; [|done].
  rewrite collect_benign.
  - by destruct P.
  - rewrite Hperm. by apply Forall_fmap.
Qed.

Lemma retry_loop_unfold fuel (res : list V) P w :
  P <> [] ->
  retry_loop func max_workers done_order (S fuel) res P w =
    match thread_attempt_get func max_workers done_order P w with
    | (Return (new_results, failed'), w1) =>
        retry_loop func max_workers done_order fuel
          (res ++ new_results) failed' w1
    | (Raise e, w1) => (Some (Raise e), w1)
    end.
Proof. by destruct P. Qed.

Lemma thread_as_retry_loop fuel data w :
  data <> [] ->
  thread func max_workers done_order fuel data w
  = retry_loop func max_workers done_order (S fuel) [] data w.
Proof.
  intros Hne. rewrite retry_loop_unfold by done. unfold thread.
  by destruct (thread_attempt_get _ _ _ _ _) as [[[new failed]|e] w1].
Qed.

Lemma thread_settled_single_chunk fuel data w :
  Z.of_nat (length data) <= max_workers ->
  Forall (fun x => settled (out x) = true) data ->
  exists res,
    thread func max_workers done_order fuel data w
      = (Some (Return res), (submit_all func data w).2)
    /\ res ≡ₚ successes ((fun x => (x, out x)) <$> data).
Proof.
  intros Hlen Hset. destruct (decide (data = [])) as [->|Hne].
  { exists []. split; [|done]. unfold thread, thread_attempt_get.
    destruct (Z.leb_spec max_workers 0) as [|_]; [lia|].
    rewrite chunks_nil by done. by destruct fuel. }
  destruct (pass_pure_single_chunk data w Hne Hlen) as (futs & Hpass & Hperm).
  { eapply Forall_impl; [exact Hset|]. intros x. apply settled_benign. }
  assert (Hnone : rate_limited futs = []).
  { apply Permutation_nil_r. rewrite (rate_limited_perm _ _ Hperm).
    clear -Hset. unfold rate_limited.
    induction Hset as [|x data Hx _ IH]; [done|]. rewrite fmap_cons.
    cbn [omap list_omap fst snd].
    destruct (out x) as [v|[| | | |code|tag]]; try done.
    cbn in Hx. apply Z.eqb_eq in Hx as ->. exact IH. }
  exists (successes futs). unfold thread. rewrite Hpass, Hnone.
  split; [by destruct fuel|]. by apply successes_perm.
Qed.

(** An input that fits in one chunk and whose items each answer with a
    value or with 404: one pass is made, the values are returned and the
    items that are not found are left out without an error. *)
Theorem not_found_dropped_single_chunk fuel data w :
  Z.of_nat (length data) <= max_workers ->
  Forall (fun x => settled (out x) = true) data ->
  exists res,
    thread func max_workers done_order fuel data w
      = (Some (Return res), (submit_all func data w).2)
    /\ res ≡ₚ successes ((fun x => (x, out x)) <$> data).
Proof. apply thread_settled_single_chunk. Qed.

(** An input that fits in one chunk and whose items are all rate-limited at
    every call: the retry loop has no ceiling, so whatever the number of
    passes allowed the engine has not returned. *)
Theorem always_rate_limited_never_returns fuel data w :
  data <> [] -> Z.of_nat (length data) <= max_workers ->
  Forall (fun x => out x = Fails (HTTPError 429)) data ->
  (thread func max_workers done_order fuel data w).1 = None.
Proof.
  intros Hne Hlen Hall. rewrite thread_as_retry_loop by done.
  generalize (@nil V) as res. generalize (S fuel) as n. clear fuel.
  intros n. revert data w Hne Hlen Hall.
  induction n as [|n IH]; intros data w Hne Hlen Hall res.
  { by destruct data. }
  rewrite retry_loop_unfold by done.
  destruct (pass_pure_single_chunk data w Hne Hlen) as (futs & -> & Hperm).
  { eapply Forall_impl; [exact Hall|]. by intros x ->. }
  assert (Hsame : rate_limited futs ≡ₚ data).
  { rewrite (rate_limited_perm _ _ Hperm). clear -Hall. unfold rate_limited.
    induction Hall as [|x data Hx _ IH]; [done|]. rewrite fmap_cons.
    cbn [omap list_omap fst snd]. rewrite Hx. cbn. by constructor. }
  apply IH.
  - intros Hnil. rewrite Hnil in Hsame. apply Permutation_nil_l in Hsame.
    by subst.
  - by rewrite Hsame.
  - by rewrite Hsame.
Qed.
End PureService.

(** Not found, in one chunk: user 0 is left out. *)
Lemma not_found_dropped_single_chunk_witness :
  exists res,
    thread missing_first 100 (fun _ futs => reverse futs) 0 [0; 1; 2]%nat tt
      = (Some (Return res), (submit_all missing_first [0; 1; 2]%nat tt).2)
    /\ res ≡ₚ successes
                ((fun x => (x, if Nat.eqb x 0 then Fails (HTTPError 404)
                               else Ok x)) <$> [0; 1; 2]%nat).
Proof.
  apply (not_found_dropped_single_chunk missing_first 100
           (fun _ futs => reverse futs)
           (fun x => if Nat.eqb x 0 then Fails (HTTPError 404) else Ok x)
           ltac:(lia) (fun _ futs => reverse_Permutation futs)
           (fun _ _ => eq_refl) 0 [0; 1; 2]%nat tt).
  - simpl. lia.
  - repeat constructor.
Defined.

(** Rate-limited for ever: two users of a service that always answers 429. *)
Lemma always_rate_limited_never_returns_witness :
  (thread (fun (x : nat) (w : unit) => (Fails (V := nat) (HTTPError 429), w))
     100 (fun _ futs => reverse futs) 5 [1; 2]%nat tt).1 = None.
Proof.
  apply (always_rate_limited_never_returns
           (fun (x : nat) (w : unit) => (Fails (V := nat) (HTTPError 429), w))
           100 (fun _ futs => reverse futs)
           (fun _ => Fails (HTTPError 429))
           ltac:(lia) (fun _ futs => reverse_Permutation futs)
           (fun _ _ => eq_refl) 5 [1; 2]%nat tt).
  - discriminate.
  - simpl. lia.
  - repeat constructor.
Defined.

Section SeveralChunks.
Context {Item V W : Type}.
Variable func : Item -> W -> outcome V * W.
Variable max_workers : Z.
Variable done_order : W -> list (Item * outcome V) -> list (Item * outcome V).
Variable out : Item -> outcome V.

Hypothesis workers_positive : 0 < max_workers.
Hypothesis done_order_perm : forall w futs, done_order w futs ≡ₚ futs.
Hypothesis func_pure : forall x w, (func x w).1 = out x.

Lemma chunks_first_two (data : list Item) :
  max_workers < Z.of_nat (length data) ->
  exists next rest,
    _chunks data max_workers
      = Return (take (Z.to_nat max_workers) data :: next :: rest)
    /\ next <> [].
Proof.
  intros Hlen. unfold _chunks.
  destruct (Z.eqb_spec max_workers 0) as [|_]; [lia|].
  destruct (Z.ltb_spec max_workers 0) as [|_]; [lia|].
  set (k := Z.to_nat max_workers).
  assert (Hk : (0 < k)%nat) by (unfold k; lia).
  assert (Hlen' : (k < length data)%nat) by (unfold k; lia).
  destruct (range_from_0_count (length data) k Hk) as [Hup _].
  unfold range_from_0.
  destruct ((length data + k - 1) / k)%nat as [|[|n]] eqn:Hn; [lia|lia|].
  cbn [seq fmap list_fmap].
  eexists _, _. split.
  - do 2 f_equal. unfold slice.
    rewrite Nat.mul_0_l, Nat.add_0_l, Nat.sub_0_r, drop_0. done.
  - intros Hnil. apply (f_equal length) in Hnil. unfold slice in Hnil.
    rewrite length_take, length_drop in Hnil. cbn in Hnil. lia.
Qed.

(** An input of more than [max_workers] items whose first chunk holds an
    item that is not found or rate-limited, and no item failing fatally:
    the handler of the error has unbound [exc], so the call ends with
    [NameError] when the second chunk is submitted; only the items of the
    first chunk have been requested. *)
Theorem handled_error_then_next_chunk fuel (data : list Item) w :
  max_workers < Z.of_nat (length data) ->
  Forall (fun x => benign (out x) = true) (take (Z.to_nat max_workers) data) ->
  Exists (fun x => is_ok (out x) = false) (take (Z.to_nat max_workers) data) ->
  thread func max_workers done_order fuel data w
  = (Some (Raise NameError),
     (submit_all func (take (Z.to_nat max_workers) data) w).2).
Proof.
  intros Hlen Hben Hbad. unfold thread, thread_attempt_get.
  destruct (Z.leb_spec max_workers 0) as [|_]; [lia|].
  destruct (chunks_first_two data Hlen) as (next & rest & -> & Hnext).
  rewrite (handled_error_unbinds_exc func done_order done_order_perm);
    [done|done|done|..].
  - rewrite (submit_all_pure func out func_pure). by apply Forall_fmap.
  - rewrite (submit_all_pure func out func_pure).
    apply not_true_is_false. intros Hall.
    rewrite forallb_forall in Hall.
    apply Exists_exists in Hbad as (x & Hx & Hno).
    specialize (Hall (x, out x)). cbn [snd] in Hall.
    rewrite Hall in Hno; [done|].
    apply list_elem_of_In, list_elem_of_fmap. by exists x.
Qed.
End SeveralChunks.

(** Three users fetched two at a time, the first of them rate-limited. *)
Lemma handled_error_then_next_chunk_witness :
  thread (fun (x : nat) (w : unit) =>
            (if Nat.eqb x 0 then Fails (HTTPError 429) else Ok x, w))
    2 (fun _ futs => reverse futs) 3 [0; 1; 2]%nat tt
  = (Some (Raise NameError), tt).
Proof.
  apply (handled_error_then_next_chunk
           (fun (x : nat) (w : unit) =>
              (if Nat.eqb x 0 then Fails (HTTPError 429) else Ok x, w))
           2 (fun _ futs => reverse futs)
           (fun x => if Nat.eqb x 0 then Fails (HTTPError 429) else Ok x)
           ltac:(lia) (fun _ futs => reverse_Permutation futs)
           (fun _ _ => eq_refl) 3 [0; 1; 2]%nat tt).
  - simpl. lia.
  - repeat constructor.
  - left. reflexivity.
Defined.

Section AllSucceedCalls.
Context {Item V W : Type}.
Variable func : Item -> W -> outcome V * W.
Variable max_workers : Z.
Variable done_order :
  W * list (Item * outcome V) ->
  list (Item * outcome V) -> list (Item * outcome V).
Variable f : Item -> V.

Hypothesis workers_positive : 0 < max_workers.
Hypothesis done_order_perm : forall w futs, done_order w futs ≡ₚ futs.
Hypothesis func_succeeds : forall x w, (func x w).1 = Ok (f x).

Lemma logged_succeeds x wl : (logged func x wl).1 = Ok (f x).
Proof.
  unfold logged. pose proof (func_succeeds x wl.1) as Hx.
  by destruct (func x wl.1).
Qed.

Lemma run_chunks_log_succeeds chunks st w log :
  exc_bound st = true ->
  exists st' w',
    run_chunks (logged func) done_order chunks st (w, log)
      = (Return st',
         (w', log ++ ((fun x => (x, Ok (f x))) <$> concat chunks)))
    /\ failed_requests st' = failed_requests st.
Proof.
  revert st w log. induction chunks as [|chunk chunks IH]; intros st w log Hb.
  - exists st, w. cbn. by rewrite app_nil_r.
  - cbn [run_chunks]. rewrite Hb.
    destruct (submit_all_logged_items func chunk w log)
      as (futs & w1 & Hsub & _).
    pose proof (submit_all_succeeds (logged func) f logged_succeeds chunk
                  (w, log)) as Hfuts.
    rewrite Hsub in *. cbn [fst] in Hfuts. subst futs.
    destruct (successes_all_ok f chunk) as (_ & Hr & Hk & Hbn).
    set (futs := (fun x => (x, Ok (f x))) <$> chunk) in *.
    pose proof (done_order_perm (w1, log ++ futs) futs) as Hperm.
    rewrite collect_benign by (by rewrite Hperm).
    rewrite (forallb_perm _ _ _ Hperm), Hk, Hb.
    pose proof (rate_limited_perm _ _ Hperm) as Hnil. rewrite Hr in Hnil.
    apply Permutation_nil_r in Hnil. rewrite Hnil, app_nil_r.
    destruct (IH (mk_attempt (results st ++ successes (done_order
                                  (w1, log ++ futs) futs))
                    (failed_requests st) true) w1 (log ++ futs) eq_refl)
      as (st' & w' & Hrun & Hfail).
    exists st', w'. cbn [concat]. rewrite fmap_app, app_assoc.
    split; [|done]. destruct chunk; exact Hrun.
Qed.

(** When the operation succeeds on every call, the engine calls it exactly
    once for each item of the input (once for each occurrence), in the
    order of the input, and never again. *)
Theorem thread_calls_each_item_once fuel data w :
  exists res w',
    thread (logged func) max_workers done_order fuel data (w, [])
    = (Some (Return res), (w', (fun x => (x, Ok (f x))) <$> data)).
Proof.
  unfold thread, thread_attempt_get.
  destruct (Z.leb_spec max_workers 0) as [|_]; [lia|].
  destruct (chunks_concat data max_workers workers_positive)
    as (chunks & -> & Hcat).
  destruct (run_chunks_log_succeeds chunks (mk_attempt [] [] true) w []
              eq_refl) as (st' & w' & -> & Hfail).
  cbn in Hfail. rewrite Hfail, Hcat. cbn [app].
  exists (results st'), w'. by destruct fuel.
Qed.
End AllSucceedCalls.

(** One call per item: five items fetched two at a time. *)
Lemma thread_calls_each_item_once_witness :
  exists res w',
    thread (logged (fun (x : nat) (w : unit) => (Ok (2 * x)%nat, w))) 2
      (fun _ futs => reverse futs) 0 [3; 1; 3; 2; 5]%nat (tt, [])
    = (Some (Return res),
       (w', (fun x => (x, Ok (2 * x)%nat)) <$> [3; 1; 3; 2; 5]%nat)).
Proof.
  apply (thread_calls_each_item_once
           (fun (x : nat) (w : unit) => (Ok (2 * x)%nat, w)) 2
           (fun _ futs => reverse futs) (fun x => (2 * x)%nat)
           ltac:(lia) (fun _ futs => reverse_Permutation futs)
           (fun _ _ => eq_refl) 0 [3; 1; 3; 2; 5]%nat tt).
Defined.

(** ** The record stream parser: what holds for every input *)

Section ParserInvariants.
Variable tags : gset str.

Implicit Types (line : bytes) (lines : list bytes) (st : parser_state)
  (game : gmap str str) (max_games : limit).

(** What one pass through the loop body does when it does not raise. *)
Lemma step_spec max_games line st y st' c :
  step tags max_games line st = Return (y, st', c) ->
  l st' = l st + 1
  /\ if is_boundary line then
       games_analyzed st' = games_analyzed st + 1
       /\ y = (if 0 <? games_analyzed st then current_game st else None)
       /\ c = (if exceeds (games_analyzed st + 1) max_games
               then Break else Next)
       /\ current_game st'
          = Some (if exceeds (games_analyzed st + 1) max_games
                  then ∅ else field tags ∅ line)
     else
       games_analyzed st' = games_analyzed st /\ y = None /\ c = Next
       /\ current_game st'
          = (fun game => field tags game line) <$> current_game st.
Proof.
  rewrite step_view. unfold is_boundary, field. cbv zeta.
  destruct (view line) as [|text|tag_name tag_value|e].
  - intros [= <- <- <-]. cbn. by destruct (current_game st).
  - destruct (bool_decide (u "Movetext" ∈ tags)).
    + destruct text as [text|]; [|done]. unfold store. cbn.
      destruct (current_game st); [|done]. by intros [= <- <- <-].
    + intros [= <- <- <-]. cbn. destruct (current_game st); by destruct text.
  - unfold tag_line. destruct (bool_decide (tag_name = u "Event")) eqn:Hev.
    + apply bool_decide_eq_true in Hev as ->. cbn.
      destruct (0 <? games_analyzed st) eqn:Hpos.
      * destruct (current_game st) as [game|]; [|done].
        destruct (exceeds (games_analyzed st + 1) max_games).
        -- by intros [= <- <- <-].
        -- unfold fetch_tag, store. cbn.
           destruct (bool_decide (_ ∈ tags)); by intros [= <- <- <-].
      * destruct (exceeds (games_analyzed st + 1) max_games).
        -- by intros [= <- <- <-].
        -- unfold fetch_tag, store. cbn.
           destruct (bool_decide (_ ∈ tags)); by intros [= <- <- <-].
    + unfold fetch_tag, store. cbn.
      destruct (bool_decide (tag_name ∈ tags)).
      * destruct (current_game st); [|done]. by intros [= <- <- <-].
      * intros [= <- <- <-]. cbn. by destruct (current_game st).
  - done.
Qed.

Lemma dom_field game line : dom (field tags game line) ⊆ dom game ∪ tags.
Proof.
  unfold field. destruct (view line) as [|[text|]|tag_name tag_value|e];
    try set_solver.
  - destruct (bool_decide_reflect (u "Movetext" ∈ tags)); [|set_solver].
    rewrite dom_insert. set_solver.
  - destruct (bool_decide_reflect (tag_name ∈ tags)); [|set_solver].
    rewrite dom_insert. set_solver.
Qed.

Lemma field_keeps_key game line key :
  is_Some (game !! key) -> is_Some (field tags game line !! key).
Proof.
  intros Hkey. unfold field.
  destruct (view line) as [|[text|]|tag_name tag_value|e]; try done.
  - destruct (bool_decide (u "Movetext" ∈ tags)); [|done].
    rewrite lookup_insert_is_Some. destruct (decide (u "Movetext" = key)); auto.
  - destruct (bool_decide (tag_name ∈ tags)); [|done].
    rewrite lookup_insert_is_Some. destruct (decide (tag_name = key)); auto.
Qed.

(** A property of the open record that every non-raising pass keeps, and
    that holds of the record a boundary line opens, holds of every record
    yielded. *)
Lemma scan_yields max_games (Q : gmap str str -> Prop) :
  (forall game line, Q game -> Q (field tags game line)) ->
  (forall line, is_boundary line = true -> Q (field tags ∅ line)) ->
  forall lines st,
    (forall game, current_game st = Some game -> Q game) ->
    Forall Q (scan tags max_games lines st).1.
Proof.
  intros Hfield Hopen lines.
  induction lines as [|line lines IH]; intros st Hst; cbn [scan].
  { constructor. }
  destruct (step tags max_games line st) as [[[y st1] c]|e] eqn:Hstep;
    [|constructor].
  apply step_spec in Hstep as [_ Hstep].
  assert (Hy : Forall Q (option_list y) /\
               (c = Next -> forall game, current_game st1 = Some game ->
                            Q game)).
  { destruct (is_boundary line) eqn:Hb.
    - destruct Hstep as (_ & -> & -> & Hcur). split.
      + destruct (0 <? games_analyzed st); [|constructor].
        destruct (current_game st) as [game|] eqn:Hg; [|constructor].
        repeat constructor. by apply Hst.
      + destruct (exceeds _ max_games); [done|]. intros _ game.
        rewrite Hcur. intros [= <-]. by apply Hopen.
    - destruct Hstep as (_ & -> & _ & Hcur). split; [constructor|].
      intros _ game. rewrite Hcur.
      destruct (current_game st) as [game0|]; [|done].
      intros [= <-]. by apply Hfield, Hst. }
  destruct Hy as [Hy Hnext]. destruct c.
  - specialize (IH st1 (Hnext eq_refl)).
    destruct (scan tags max_games lines st1) as [ys r]. cbn [fst] in *.
    by apply Forall_app.
  - done.
Qed.

(** Every record yielded has its keys in [tags], on every input. *)
Theorem yielded_keys_in_tags max_games lines game :
  game ∈ (get_game_data_lichess tags max_games lines).1 -> dom game ⊆ tags.
Proof.
  unfold get_game_data_lichess.
  pose proof (scan_yields max_games (fun game => dom game ⊆ tags)) as Hall.
  specialize (Hall ltac:(intros g line Hg; pose proof (dom_field g line);
                         set_solver)
                   ltac:(intros line _; pose proof (dom_field ∅ line);
                         set_solver)
                   lines (mk_parser 0 0 None) ltac:(done)).
  destruct (scan tags max_games lines _) as [ys [[st c]|e]]; cbn [fst] in *;
    rewrite Forall_forall in Hall; apply Hall.
Qed.

(** When [Event] is among the tags, every record yielded has the key
    [Event], on every input. *)
Theorem yielded_has_event max_games lines game :
  u "Event" ∈ tags ->
  game ∈ (get_game_data_lichess tags max_games lines).1 ->
  is_Some (game !! u "Event").
Proof.
  intros Hev. unfold get_game_data_lichess.
  pose proof (scan_yields max_games
                (fun game => is_Some (game !! u "Event"))) as Hall.
  specialize (Hall ltac:(intros g line; apply field_keeps_key)).
  specialize (Hall (fun line Hb => ltac:(
    unfold is_boundary, field in *;
    destruct (view line) as [| |tag_name tag_value|]; try done;
    apply bool_decide_eq_true in Hb as ->;
    rewrite bool_decide_eq_true_2 by done;
    rewrite lookup_insert_eq; by eexists))).
  specialize (Hall lines (mk_parser 0 0 None) ltac:(done)).
  destruct (scan tags max_games lines _) as [ys [[st c]|e]]; cbn [fst] in *;
    rewrite Forall_forall in Hall; apply Hall.
Qed.
End ParserInvariants.

Section ParserLimit.
Variable tags : gset str.

Implicit Types (line : bytes) (lines : list bytes) (st : parser_state).

(** The limit is looked at on boundary lines only. *)
Lemma step_limit_irrelevant max1 max2 line st :
  is_boundary line = false ->
  step tags max1 line st = step tags max2 line st.
Proof.
  intros Hb. rewrite !step_view. unfold is_boundary in Hb. cbv zeta.
  destruct (view line) as [|text|tag_name tag_value|e]; try done.
  unfold tag_line. by rewrite Hb.
Qed.

(** Whether a pass raises does not depend on the limit. *)
Lemma step_raise_limit max1 max2 line st e :
  step tags max1 line st = Raise e -> step tags max2 line st = Raise e.
Proof.
  destruct (is_boundary line) eqn:Hb;
    [|by rewrite (step_limit_irrelevant max1 max2)].
  rewrite !step_view. unfold is_boundary in Hb. cbv zeta.
  destruct (view line) as [|text|tag_name tag_value|e']; try done.
  unfold tag_line, fetch_tag, store. rewrite Hb.
  cbn [games_analyzed l current_game].
  destruct (0 <? games_analyzed st); [destruct (current_game st)|];
    [|done|];
    (destruct (exceeds _ max1); [done|]);
    by destruct (bool_decide (_ ∈ tags)).
Qed.

Lemma scan_limit m lines st :
  0 <= games_analyzed st ->
  games_analyzed st = 0 \/ games_analyzed st <= m ->
  ((0 <? games_analyzed st) = true -> is_Some (current_game st)) ->
  (scan tags (Int m) lines st).1
  = take (allowance m st) (scan tags Inf lines st).1.
Proof.
  revert st. induction lines as [|line lines IH]; intros st Hge Hle Hopen.
  { cbn. by rewrite take_nil. }
  cbn [scan].
  destruct (step tags Inf line st) as [[[y st1] c]|e] eqn:Hinf.
  2: { rewrite (step_raise_limit Inf (Int m) line st e Hinf). cbn.
       by rewrite take_nil. }
  destruct (is_boundary line) eqn:Hb.
  - destruct (step tags (Int m) line st) as [[[y' st1'] c']|e] eqn:Hint.
    2: { by rewrite (step_raise_limit (Int m) Inf line st e Hint) in Hinf. }
    apply step_spec in Hinf as [Hl Hinf]. rewrite Hb in Hinf.
    destruct Hinf as (Hga & -> & -> & Hcur). cbn [exceeds] in *.
    apply step_spec in Hint as [Hl' Hint]. rewrite Hb in Hint.
    destruct Hint as (Hga' & -> & -> & Hcur'). cbn [exceeds] in *.
    destruct (Z.ltb_spec m (games_analyzed st + 1)) as [Hbreak|Hgo].
    + cbn [fst]. destruct (scan tags Inf lines st1) as [ys r]. cbn [fst].
      unfold allowance. destruct (Z.ltb_spec 0 (games_analyzed st)) as [Hp|Hz].
      * destruct (Hopen eq_refl) as [game ->]. cbn.
        replace (Z.to_nat _) with 1%nat by lia. done.
      * replace (Z.to_nat _) with 0%nat by lia. done.
    + assert (st1' = st1) as ->.
      { destruct st1, st1'. cbn in *. congruence. }
      specialize (IH st1). rewrite Hga in IH.
      destruct (scan tags (Int m) lines st1) as [ys' r'].
      destruct (scan tags Inf lines st1) as [ys r]. cbn [fst] in *.
      rewrite IH; [|lia|lia|by rewrite Hcur].
      unfold allowance. rewrite Hga.
      destruct (Z.ltb_spec 0 (games_analyzed st)) as [Hp|Hz].
      * destruct (Hopen eq_refl) as [game ->]. cbn [option_list app].
        replace (Z.to_nat (m - Z.max (games_analyzed st - 1) 0))
          with (S (Z.to_nat (m - Z.max (games_analyzed st + 1 - 1) 0)))
          by lia.
        done.
      * cbn [option_list app].
        replace (Z.to_nat (m - Z.max (games_analyzed st + 1 - 1) 0))
          with (Z.to_nat (m - Z.max (games_analyzed st - 1) 0)) by lia.
        done.
  - rewrite (step_limit_irrelevant (Int m) Inf line st Hb), Hinf.
    apply step_spec in Hinf as [Hl Hinf]. rewrite Hb in Hinf.
    destruct Hinf as (Hga & -> & -> & Hcur).
    specialize (IH st1). rewrite Hga in IH.
    destruct (scan tags (Int m) lines st1) as [ys' r'].
    destruct (scan tags Inf lines st1) as [ys r].
    cbn [fst option_list app] in *.
    rewrite IH; [|done|done|].
    + unfold allowance. by rewrite Hga.
    + intros Hp. rewrite Hcur. destruct (Hopen Hp) as [game ->]. by eexists.
Qed.

(** The limit only truncates: on every input, the records yielded under
    [max_games = m] are the first [m] records yielded without a limit. *)
Theorem limit_truncates m lines :
  (get_game_data_lichess tags (Int m) lines).1
  = take (Z.to_nat m) (get_game_data_lichess tags Inf lines).1.
Proof.
  unfold get_game_data_lichess.
  pose proof (scan_limit m lines (mk_parser 0 0 None)) as Hscan.
  cbn [games_analyzed current_game] in Hscan.
  specialize (Hscan ltac:(lia) ltac:(by left) ltac:(done)).
  unfold allowance in Hscan. cbn [games_analyzed] in Hscan.
  replace (m - Z.max (0 - 1) 0) with m in Hscan by lia.
  destruct (scan tags (Int m) lines _) as [ys' [[st' c']|e']];
    destruct (scan tags Inf lines _) as [ys [[st c]|e]]; exact Hscan.
Qed.

(** At most [max_games] records are yielded, on every input. *)
Theorem yields_at_most_max_games m lines :
  (length (get_game_data_lichess tags (Int m) lines).1 <= Z.to_nat m)%nat.
Proof.
  unfold get_game_data_lichess.
  pose proof (scan_limit m lines (mk_parser 0 0 None)) as Hscan.
  cbn [games_analyzed current_game] in Hscan.
  specialize (Hscan ltac:(lia) ltac:(by left) ltac:(done)).
  unfold allowance in Hscan. cbn [games_analyzed] in Hscan.
  replace (m - Z.max (0 - 1) 0) with m in Hscan by lia.
  destruct (scan tags (Int m) lines _) as [ys' [[st' c']|e']];
    cbn [fst] in *; rewrite Hscan, length_take; lia.
Qed.
End ParserLimit.

Section ParserCounts.
Variable tags : gset str.
Variable max_games : limit.

Implicit Types (line : bytes) (lines : list bytes) (st : parser_state).

Lemma scan_count lines st :
  0 <= games_analyzed st ->
  (length (scan tags max_games lines st).1
   <= length (filter (fun line => is_boundary line = true) lines)
      - (if (games_analyzed st =? 0)%Z then 1 else 0))%nat.
Proof.
  revert st. induction lines as [|line lines IH]; intros st Hge.
  { cbn. lia. }
  cbn [scan].
  destruct (step tags max_games line st) as [[[y st1] c]|e] eqn:Hstep;
    [|cbn; lia].
  apply step_spec in Hstep as [_ Hstep].
  destruct (is_boundary line) eqn:Hb.
  - rewrite filter_cons_True by done. cbn [length].
    destruct Hstep as (Hga & -> & -> & _).
    assert (Hy : (length (option_list
                            (if (0 <? games_analyzed st)%Z
                             then current_game st else None))
                  <= if (games_analyzed st =? 0)%Z then 0 else 1)%nat).
    { destruct (Z.ltb_spec 0 (games_analyzed st)),
        (Z.eqb_spec (games_analyzed st) 0); try lia;
        destruct (current_game st); cbn; lia. }
    destruct (exceeds _ max_games).
    + cbn [fst]. destruct (games_analyzed st =? 0); lia.
    + specialize (IH st1 ltac:(lia)).
      destruct (scan tags max_games lines st1) as [ys r]. cbn [fst] in *.
      rewrite length_app.
      destruct (Z.eqb_spec (games_analyzed st1) 0); [lia|].
      destruct (games_analyzed st =? 0); lia.
  - rewrite filter_cons_False by (by rewrite Hb).
    destruct Hstep as (Hga & -> & -> & _).
    specialize (IH st1 ltac:(lia)). rewrite Hga in IH.
    by destruct (scan tags max_games lines st1) as [ys r].
Qed.

(** On every input, fewer records are yielded than there are boundary
    lines: the record that the last boundary line opens is never yielded,
    and without a boundary line nothing is. *)
Theorem yields_fewer_than_boundaries lines :
  (length (get_game_data_lichess tags max_games lines).1
   <= length (filter (fun line => is_boundary line = true) lines) - 1)%nat.
Proof.
  unfold get_game_data_lichess.
  pose proof (scan_count lines (mk_parser 0 0 None) ltac:(done)) as Hcount.
  cbn [games_analyzed] in Hcount. change (0 =? 0) with true in Hcount.
  by destruct (scan tags max_games lines _) as [ys [[st c]|e]].
Qed.
End ParserCounts.

Section ParserRecords.
Variable tags : gset str.

Lemma take_all_but_last {A : Type} (r : A) (rs : list A) :
  rs <> [] ->
  take (length (r :: rs) - 1) (r :: rs) = r :: take (length rs - 1) rs.
Proof.
  destruct rs as [|r' rs]; [done|]. intros _. cbn. by rewrite Nat.sub_0_r.
Qed.

Lemma scan_records_inf rs : forall st game,
  Forall (record_lines tags) rs -> rs <> [] ->
  0 < games_analyzed st -> current_game st = Some game ->
  exists st',
    scan tags Inf (concat rs) st
    = (game :: (build tags <$> take (length rs - 1) rs), Return (st', Next))
    /\ l st' = l st + Z.of_nat (length (concat rs)).
Proof.
  induction rs as [|r rs IH]; intros st game Hall Hne Hpos Hgame; [done|].
  apply Forall_cons in Hall as [(head & inner & -> & Hhead & Hinner) Hall].
  cbn [concat]. rewrite <- app_comm_cons.
  rewrite (scan_next_record tags Inf head inner (concat rs) st game)
    by done.
  cbn [exceeds]. destruct (decide (rs = [])) as [->|Hrs].
  - cbn [concat scan]. eexists. split; [reflexivity|].
    cbn [l]. rewrite app_nil_r. done.
  - match goal with
    | |- context [scan tags Inf (concat rs) ?s] =>
        destruct (IH s (build tags (head :: inner)) Hall Hrs)
          as (st' & -> & Hl); [cbn; lia|reflexivity|]
    end.
    exists st'. rewrite take_all_but_last by done. split; [done|].
    rewrite Hl. cbn [l]. rewrite app_comm_cons, length_app. lia.
Qed.

(** An archive of [n] records read without a limit: the first [n - 1]
    records are yielded, in order, every line is read, and the last record
    is not yielded. *)
Theorem records_yield_all_but_last rs :
  Forall (record_lines tags) rs -> rs <> [] ->
  get_game_data_lichess tags Inf (concat rs)
  = (build tags <$> take (length rs - 1) rs,
     Return (Z.of_nat (length (concat rs)))).
Proof.
  intros Hall Hne. destruct rs as [|r rs]; [done|].
  apply Forall_cons in Hall as [(head & inner & -> & Hhead & Hinner) Hall].
  unfold get_game_data_lichess. cbn [concat]. rewrite <- app_comm_cons.
  rewrite scan_first_record by done.
  destruct (decide (rs = [])) as [->|Hrs].
  - cbn [concat scan l]. by rewrite app_nil_r.
  - match goal with
    | |- context [scan tags Inf (concat rs) ?s] =>
        destruct (scan_records_inf rs s (build tags (head :: inner)) Hall Hrs)
          as (st' & -> & Hl); [cbn; lia|reflexivity|]
    end.
    rewrite take_all_but_last by done. cbn [fmap list_fmap]. f_equal.
    rewrite Hl. cbn [l]. rewrite app_comm_cons, length_app. f_equal. lia.
Qed.
End ParserRecords.

(** All but the last: the archive of the three records. *)
Lemma records_yield_all_but_last_witness :
  get_game_data_lichess {[ u "Event"; u "Result" ]} Inf
    (concat [game1; game2; game3])
  = (build {[ u "Event"; u "Result" ]}
       <$> take (length [game1; game2; game3] - 1) [game1; game2; game3],
     Return (Z.of_nat (length (concat [game1; game2; game3])))).
Proof.
  apply (records_yield_all_but_last {[ u "Event"; u "Result" ]}
           [game1; game2; game3]).
  - repeat (constructor; [concrete_record|]). constructor.
  - discriminate.
Defined.

Section ParserIgnoredLines.
Variable tags : gset str.
Variable max_games : limit.

Implicit Types (line : bytes) (lines : list bytes) (st : parser_state).

(** The line counter is only counted up: it has no influence on the run. *)
Lemma step_with_l n line st :
  step tags max_games line (with_l n st) =
    match step tags max_games line st with
    | Return (y, st1, c) => Return (y, with_l (n + 1) st1, c)
    | Raise e => Raise e
    end.
Proof.
  unfold step, with_l, tag_line, fetch_tag, store.
  cbn [games_analyzed l current_game].
  destruct (bool_decide (line = [x0a])); [done|].
  destruct (negb (startswith_bracket line)).
  { destruct (bool_decide (_ ∈ tags)); [|done].
    destruct (decode _); [|done]. by destruct (current_game st). }
  destruct (decode (drop 1 line)) as [line'|]; [|done].
  destruct (split_tag line') as [[tag_name tag_value]|e]; [|done].
  destruct (bool_decide (tag_name = u "Event")).
  - destruct (0 <? games_analyzed st); [destruct (current_game st)|];
      [|done|]; (destruct (exceeds _ max_games); [done|]);
      by destruct (bool_decide (_ ∈ tags)).
  - destruct (bool_decide (tag_name ∈ tags)); [|done].
    by destruct (current_game st).
Qed.

Lemma step_ignored line st :
  ignored tags line = true ->
  step tags max_games line st = Return (None, with_l (l st + 1) st, Next).
Proof.
  intros Hign. rewrite step_view. unfold ignored in Hign. cbv zeta.
  destruct (view line) as [|text|tag_name tag_value|e]; [done| | |done].
  - apply negb_true_iff in Hign. by rewrite Hign.
  - apply andb_true_iff in Hign as [Hev Hin]. apply negb_true_iff in Hev, Hin.
    unfold tag_line, fetch_tag. by rewrite Hev, Hin.
Qed.

(** Two runs agree when they yield the same records and end alike: both by
    the same exception, or both normally in states that differ in the line
    counter only. *)
Lemma scan_without_ignored lines : forall st n,
  let r := scan tags max_games lines st in
  let r' := scan tags max_games
              (filter (fun line => ignored tags line = false) lines)
              (with_l n st) in
  r.1 = r'.1
  /\ match r.2, r'.2 with
     | Return (st1, c), Return (st1', c') =>
         c = c' /\ exists n', st1' = with_l n' st1
     | Raise e, Raise e' => e = e'
     | _, _ => False
     end.
Proof.
  induction lines as [|line lines IH]; intros st n; cbv zeta.
  { cbn. split; [done|]. split; [done|]. by exists n. }
  destruct (ignored tags line) eqn:Hign.
  - rewrite filter_cons_False by (by rewrite Hign). cbn [scan].
    rewrite (step_ignored line st Hign).
    destruct (IH (with_l (l st + 1) st) n) as [Hys Hr]. cbv zeta in Hys, Hr.
    unfold with_l in Hys, Hr. cbn [games_analyzed current_game] in Hys, Hr.
    fold (with_l n st) in Hys, Hr.
    fold (with_l (l st + 1) st) in Hys, Hr.
    destruct (scan tags max_games lines (with_l (l st + 1) st)) as [ys r].
    by cbn [option_list app fst snd] in *.
  - rewrite filter_cons_True by done. cbn [scan]. rewrite step_with_l.
    destruct (step tags max_games line st) as [[[y st1] c]|e]; [|done].
    destruct c; [|cbn; split; [done|]; split; [done|]; by eexists].
    destruct (IH st1 (n + 1)) as [Hys Hr]. cbv zeta in Hys, Hr.
    destruct (scan tags max_games lines st1) as [ys r].
    destruct (scan tags max_games _ (with_l (n + 1) st1)) as [ys' r'].
    cbn [fst snd] in *. by rewrite Hys.
Qed.

(** On every input, the lines that are passed over can be taken away: the
    records yielded are the same, and the run ends with the same exception
    if it ends with one.  Only the number printed at the end differs. *)
Theorem ignored_lines_do_not_matter lines :
  (get_game_data_lichess tags max_games lines).1
  = (get_game_data_lichess tags max_games
       (filter (fun line => ignored tags line = false) lines)).1
  /\ forall e,
       (get_game_data_lichess tags max_games lines).2 = Raise e
       <-> (get_game_data_lichess tags max_games
              (filter (fun line => ignored tags line = false) lines)).2
           = Raise e.
Proof.
  unfold get_game_data_lichess.
  destruct (scan_without_ignored lines (mk_parser 0 0 None) 0) as [Hys Hr].
  cbv zeta in Hys, Hr. change (with_l 0 (mk_parser 0 0 None))
    with (mk_parser 0 0 None) in Hys, Hr.
  destruct (scan tags max_games lines _) as [ys [[st c]|e]];
    destruct (scan tags max_games (filter _ lines) _) as [ys' [[st' c']|e']];
    cbn [fst snd] in *; try done.
  split; [done|]. intros e0. by rewrite Hr.
Qed.
End ParserIgnoredLines.

(** ** The record stream parser: reading a tag line back *)

Section TagLines.
Local Open Scope N_scope.

Lemma quote_indices_from_no_quote (name rest : str) (i : nat) :
  34 ∉ name ->
  quote_indices_from i (name ++ rest)
  = quote_indices_from (i + length name) rest.
Proof.
  revert i. induction name as [|c name IH]; intros i Hno; cbn [app length].
  - by rewrite Nat.add_0_r.
  - cbn [quote_indices_from]. apply not_elem_of_cons in Hno as [Hc Hno].
    destruct (N.eqb_spec c 34) as [->|_]; [done|].
    rewrite IH by done. f_equal. lia.
Qed.

Lemma split_tag_quoted (name value rest : str) :
  34 ∉ name -> 34 ∉ value ->
  split_tag (name ++ 34 :: value ++ 34 :: rest)
  = Return (rstrip str_isspace name, value).
Proof.
  intros Hname Hvalue. unfold split_tag, quote_indices.
  rewrite quote_indices_from_no_quote by done.
  cbn [quote_indices_from]. change (34 =? 34) with true. cbv iota.
  rewrite quote_indices_from_no_quote by done.
  cbn [quote_indices_from]. change (34 =? 34) with true. cbv iota.
  cbn [lookup list_lookup]. rewrite !Nat.add_0_l, take_app_length.
  do 2 f_equal. unfold slice.
  replace (S (length name) + length value - (length name + 1))%nat
    with (length value) by lia.
  replace (length name + 1)%nat with (length (name ++ [34]))
    by (rewrite length_app; cbn; lia).
  replace (name ++ 34 :: value ++ 34 :: rest)
    with ((name ++ [34]) ++ value ++ 34 :: rest)
    by (by rewrite <- app_assoc).
  by rewrite drop_app_length, take_app_length.
Qed.

(** The text before the first quotation mark, right-trimmed, is the name;
    the text between the first two quotation marks is the value.  What
    follows the second quotation mark is not looked at. *)
Theorem split_tag_format (name value rest : str) :
  34 ∉ name -> 34 ∉ value ->
  split_tag (name ++ 34 :: value ++ 34 :: rest)
  = Return (rstrip str_isspace name, value).
Proof. apply split_tag_quoted. Qed.

Lemma decode_ascii (bs : bytes) :
  Forall (fun c => Byte.to_N c < 128) bs -> decode bs = Some (Byte.to_N <$> bs).
Proof.
  unfold decode. induction 1 as [|c bs Hc _ IH]; [done|].
  rewrite fmap_cons. cbn [decode_utf8].
  destruct (N.ltb_spec (Byte.to_N c) 128) as [_|]; [|lia].
  by rewrite IH.
Qed.

Lemma rstrip_snoc_space {A : Type} (isspace : A -> bool) (x : list A) c :
  isspace c = true -> rstrip isspace (x ++ [c]) = rstrip isspace x.
Proof.
  intros Hc. induction x as [|d x IH]; cbn [app rstrip].
  - by rewrite Hc.
  - by rewrite IH.
Qed.

Lemma to_N_quote (c : byte) : Byte.to_N c = 34 -> c = x22.
Proof.
  intros Hc. pose proof (Byte.of_to_N c) as Hof. rewrite Hc in Hof.
  cbv in Hof. congruence.
Qed.

Lemma view_ascii_tag (name value : bytes) :
  Forall (fun c => Byte.to_N c < 128) name ->
  Forall (fun c => Byte.to_N c < 128) value ->
  x22 ∉ name -> x22 ∉ value ->
  view (x5b :: name ++ [x20; x22] ++ value ++ [x22; x5d; x0a])
  = TagLine (rstrip str_isspace (Byte.to_N <$> name)) (Byte.to_N <$> value).
Proof.
  intros Hname Hvalue Hqn Hqv. unfold view.
  rewrite bool_decide_eq_false_2 by (destruct name; discriminate).
  cbn [startswith_bracket negb Byte.eqb drop].
  change (Byte.eqb x5b x5b) with true.
  cbv iota. cbn [negb]. rewrite drop_0.
  rewrite decode_ascii.
  2: { apply Forall_app. split; [done|]. repeat (constructor; [cbv; done|]).
       apply Forall_app. split; [done|]. repeat constructor; cbv; done. }
  rewrite !fmap_app. cbn [fmap list_fmap].
  change (Byte.to_N x20) with 32. change (Byte.to_N x22) with 34.
  match goal with
  | |- context [split_tag ?line] =>
      replace line
        with (((Byte.to_N <$> name) ++ [32]) ++ 34 :: (Byte.to_N <$> value)
                ++ 34 :: [93; 10])
        by (by rewrite <- app_assoc)
  end.
  rewrite split_tag_quoted.
  - by rewrite rstrip_snoc_space.
  - intros [Hin|Hin]%elem_of_app.
    + apply list_elem_of_fmap in Hin as (c & Hc & Hin).
      symmetry in Hc. apply to_N_quote in Hc as ->. done.
    + apply list_elem_of_singleton in Hin. discriminate.
  - intros Hin. apply list_elem_of_fmap in Hin as (c & Hc & Hin).
    symmetry in Hc. apply to_N_quote in Hc as ->. done.
Qed.
End TagLines.

(** A line written as a bracket, a name, a space, a quoted value, a closing
    bracket and a newline, name and value being ASCII text without
    quotation mark: the loop body counts the line and handles it as the
    tag with that name, right-trimmed, and that value. *)
Theorem step_ascii_tag tags max_games (name value : bytes) st :
  Forall (fun c => (Byte.to_N c < 128)%N) name ->
  Forall (fun c => (Byte.to_N c < 128)%N) value ->
  x22 ∉ name -> x22 ∉ value ->
  step tags max_games
    (x5b :: name ++ [x20; x22] ++ value ++ [x22; x5d; x0a]) st
  = tag_line tags max_games
      (rstrip str_isspace (Byte.to_N <$> name)) (Byte.to_N <$> value)
      (mk_parser (games_analyzed st) (l st + 1) (current_game st)).
Proof.
  intros Hname Hvalue Hqn Hqv.
  by rewrite step_view, view_ascii_tag.
Qed.

(** The value of a tag line with a bracket and a comma in it. *)
Lemma split_tag_format_witness :
  split_tag (u "Opening " ++ 34%N :: u "Sicilian Defense: Najdorf, [B90]"
               ++ 34%N :: u "]")
  = Return (rstrip str_isspace (u "Opening "),
            u "Sicilian Defense: Najdorf, [B90]").
Proof.
  apply (split_tag_format (u "Opening ")
           (u "Sicilian Defense: Najdorf, [B90]") (u "]")).
  - apply (bool_decide_unpack _). vm_compute. exact I.
  - apply (bool_decide_unpack _). vm_compute. exact I.
Defined.

(** The first [Event] line of an archive: nothing is yielded, the record
    is opened and the value is stored. *)
Lemma step_ascii_tag_witness :
  step {[ u "Event"; u "Result" ]} Inf
    (x5b :: b "Event" ++ [x20; x22] ++ b "Rated Blitz game"
       ++ [x22; x5d; x0a]) (mk_parser 0 0 None)
  = tag_line {[ u "Event"; u "Result" ]} Inf
      (rstrip str_isspace (Byte.to_N <$> b "Event"))
      (Byte.to_N <$> b "Rated Blitz game")
      (mk_parser 0 (0 + 1) None).
Proof.
  apply (step_ascii_tag {[ u "Event"; u "Result" ]} Inf
           (b "Event") (b "Rated Blitz game") (mk_parser 0 0 None)).
  - apply (bool_decide_unpack _). vm_compute. exact I.
  - apply (bool_decide_unpack _). vm_compute. exact I.
  - apply (bool_decide_unpack _). vm_compute. exact I.
  - apply (bool_decide_unpack _). vm_compute. exact I.
Defined.

(** The keys of the record yielded for the scenario. *)
Lemma yielded_keys_in_tags_witness :
  dom ({[ u "Event" := u "Rated Blitz game"; u "Result" := u "1-0" ]}
         : gmap str str)
  ⊆ ({[ u "Event"; u "Result" ]} : gset str).
Proof.
  apply (yielded_keys_in_tags {[ u "Event"; u "Result" ]} Inf scenario).
  vm_compute. left.
Defined.

(** The record yielded for the scenario has the key [Event]. *)
Lemma yielded_has_event_witness :
  is_Some (({[ u "Event" := u "Rated Blitz game"; u "Result" := u "1-0" ]}
             : gmap str str) !! u "Event").
Proof.
  apply (yielded_has_event {[ u "Event"; u "Result" ]} Inf scenario).
  - apply (bool_decide_unpack _). vm_compute. exact I.
  - vm_compute. left.
Defined.

(** ** The callers of the engine *)

Lemma concat_perm {A : Type} (ls ks : list (list A)) :
  ls ≡ₚ ks -> concat ls ≡ₚ concat ks.
Proof.
  induction 1 as [|x l1 l2 _ IH|x y l|l1 l2 l3 _ IH1 _ IH2]; cbn.
  - done.
  - by rewrite IH.
  - rewrite !app_assoc. by rewrite (Permutation_app_comm x y).
  - by rewrite IH1.
Qed.

Lemma chunks_sizes {A : Type} (S : list A) (K : Z) :
  0 < K ->
  exists chunks,
    _chunks S K = Return chunks /\ concat chunks = S
    /\ Forall (fun c => (0 < length c <= Z.to_nat K)%nat) chunks.
Proof.
  intros HK. unfold _chunks.
  destruct (Z.eqb_spec K 0) as [|_]; [lia|].
  destruct (Z.ltb_spec K 0) as [|_]; [lia|].
  set (k := Z.to_nat K). assert (Hk : (0 < k)%nat) by (unfold k; lia).
  eexists; split; [reflexivity|].
  destruct (range_from_0_count (length S) k Hk) as [Hup Hlow].
  split.
  - unfold range_from_0. rewrite concat_slices. by apply take_ge.
  - apply Forall_forall. intros c Hc.
    apply list_elem_of_lookup in Hc as [i Hi].
    apply chunks_lookup in Hi as [-> Hi]; [|done].
    rewrite length_take, length_drop.
    destruct Hlow as [Hz|Hlow]; [lia|]. nia.
Qed.

Section AllSucceedLog.
Context {Item V W : Type}.
Variable func : Item -> W -> outcome V * W.
Variable max_workers : Z.
Variable done_order :
  W * list (Item * outcome V) ->
  list (Item * outcome V) -> list (Item * outcome V).
Variable f : Item -> V.

Hypothesis workers_positive : 0 < max_workers.
Hypothesis done_order_perm : forall w futs, done_order w futs ≡ₚ futs.
Hypothesis func_succeeds : forall x w, (func x w).1 = Ok (f x).

Lemma thread_log_succeeds fuel data w :
  exists res w',
    thread (logged func) max_workers done_order fuel data (w, [])
    = (Some (Return res), (w', (fun x => (x, Ok (f x))) <$> data))
    /\ res ≡ₚ f <$> data.
Proof.
  unfold thread, thread_attempt_get.
  destruct (Z.leb_spec max_workers 0) as [|_]; [lia|].
  destruct (chunks_concat data max_workers workers_positive)
    as (chunks & -> & Hcat).
  destruct (run_chunks_log_succeeds func done_order f done_order_perm
              func_succeeds chunks (mk_attempt [] [] true) w [] eq_refl)
    as (st' & w' & Hrun & Hfail).
  destruct (run_chunks_succeeds (logged func) done_order f done_order_perm
              (logged_succeeds func f func_succeeds) chunks
              (mk_attempt [] [] true) (w, []) eq_refl)
    as (st'' & w'' & Hrun' & Hres & _).
  rewrite Hrun in Hrun'. injection Hrun' as <- <-. rewrite Hrun.
  cbn in Hfail, Hres. rewrite Hfail, Hcat in *. cbn [app].
  exists (results st'), w'. split; [by destruct fuel|done].
Qed.
End AllSucceedLog.

Section LichessFacts.
Context {Item V W : Type}.
Variable fetch_300 : list Item -> W -> outcome (list V) * W.
Variable set_order : list Item -> list Item.
Variable done_order :
  W * list (list Item * outcome (list V)) ->
  list (list Item * outcome (list V)) -> list (list Item * outcome (list V)).
Variable resp : list Item -> list V.

Hypothesis done_order_perm : forall w futs, done_order w futs ≡ₚ futs.
Hypothesis set_order_spec :
  forall l, NoDup (set_order l) /\ forall x, x ∈ set_order l <-> x ∈ l.
Hypothesis fetch_succeeds : forall c w, (fetch_300 c w).1 = Ok (resp c).

(** When every request succeeds: each request carries between 1 and 300
    usernames, the requests are made once each, together they carry every
    username of the input and none twice, and the answers are returned
    appended to one another, up to the order of the requests.  For the
    empty input no request is made. *)
Theorem lichess_requests fuel usernames w :
  exists chunks out w',
    get_user_data_lichess (logged fetch_300) set_order done_order fuel
      usernames (w, [])
    = (Some (Return out), (w', (fun c => (c, Ok (resp c))) <$> chunks))
    /\ (exists fetched, out = concat fetched /\ fetched ≡ₚ resp <$> chunks)
    /\ Forall (fun c => (0 < length c <= 300)%nat) chunks
    /\ NoDup (concat chunks)
    /\ (forall x, x ∈ concat chunks <-> x ∈ usernames)
    /\ (usernames = [] -> chunks = []).
Proof.
  unfold get_user_data_lichess, _concurrent_function.
  destruct (chunks_sizes (set_order usernames) 300 ltac:(done))
    as (chunks & -> & Hcat & Hsizes).
  destruct (thread_log_succeeds (V := list V) fetch_300 100 done_order resp
              ltac:(done) done_order_perm fetch_succeeds fuel chunks w)
    as (fetched & w' & -> & Hperm).
  destruct (set_order_spec usernames) as [Hnd Hin].
  exists chunks, (concat fetched), w'. split; [done|].
  split; [by exists fetched|]. split; [done|]. rewrite Hcat.
  split; [done|]. split; [done|].
  intros ->. destruct chunks as [|c chunks]; [done|].
  apply Forall_cons in Hsizes as [Hc _].
  destruct c as [|x c]; [cbn in Hc; lia|].
  assert (Hx : x ∈ set_order []) by (rewrite <- Hcat; left).
  apply Hin in Hx. by apply not_elem_of_nil in Hx.
Qed.
End LichessFacts.

(** [get_user_data_lichess] on usernames with repetitions, every request
    being answered. *)
Lemma lichess_requests_witness :
  exists chunks out w',
    get_user_data_lichess (logged answer_doubles) remove_dups
      (fun _ futs => reverse futs) 0 [5; 3; 5; 7; 3]%nat (tt, [])
    = (Some (Return out), (w', (fun c => (c, Ok (doubles c))) <$> chunks))
    /\ (exists fetched,
          out = concat fetched /\ fetched ≡ₚ doubles <$> chunks)
    /\ Forall (fun c => (0 < length c <= 300)%nat) chunks
    /\ NoDup (concat chunks)
    /\ (forall x, x ∈ concat chunks <-> x ∈ [5; 3; 5; 7; 3]%nat)
    /\ ([5; 3; 5; 7; 3]%nat = [] -> chunks = []).
Proof.
  apply (lichess_requests answer_doubles remove_dups
           (fun _ futs => reverse futs) doubles
           (fun _ futs => reverse_Permutation futs)).
  - intros l0. split; [apply NoDup_remove_dups|].
    intros x. apply elem_of_remove_dups.
  - reflexivity.
Defined.

Section ChessComFacts.
Context {V W : Type}.
Variable urlopen : str -> W -> outcome V * W.
Variable done_order :
  W -> list (str * outcome (gmap str V)) -> list (str * outcome (gmap str V)).
Variable page : str -> outcome V.

Hypothesis done_order_perm : forall w futs, done_order w futs ≡ₚ futs.
Hypothesis urlopen_pure : forall url w, (urlopen url w).1 = page url.

Lemma fetch_pure username w :
  (fetch urlopen username w).1 = user_data page username.
Proof.
  unfold fetch, user_data. cbv zeta.
  pose proof (urlopen_pure (u "https://api.chess.com/pub/player/" ++ username)
                w) as Hp.
  destruct (urlopen _ w) as [[profile|e] w1]; cbn [fst] in Hp; rewrite <- Hp;
    [|done].
  pose proof (urlopen_pure
                ((u "https://api.chess.com/pub/player/" ++ username)
                   ++ u "/stats") w1) as Hs.
  destruct (urlopen _ w1) as [[stats|e] w2]; cbn [fst] in Hs; by rewrite <- Hs.
Qed.

(** At most 100 users, each of whose two pages is there or is answered with
    404 (the stats page being asked for only when the profile is there):
    [get_user_data_chesscom] returns, up to order, one mapping with the keys
    [profile] and [stats] for each user (each occurrence of a user) whose
    two pages are there, and leaves the other users out. *)
Theorem chesscom_reports fuel usernames w :
  (length usernames <= 100)%nat ->
  Forall (fun username => settled (user_data page username) = true)
    usernames ->
  exists res w',
    get_user_data_chesscom urlopen done_order fuel usernames w
    = (Some (Return res), w')
    /\ res ≡ₚ successes
                ((fun username => (username, user_data page username))
                   <$> usernames).
Proof.
  intros Hlen Hset. unfold get_user_data_chesscom, _concurrent_function.
  destruct (thread_settled_single_chunk (fetch urlopen) 100 done_order
              (user_data page) ltac:(done) done_order_perm fetch_pure
              fuel usernames w ltac:(lia) Hset) as (res & -> & Hres).
  by eexists _, _.
Qed.
End ChessComFacts.

(** [ann] is reported, [bob], whose stats are not found, is not. *)
Lemma chesscom_reports_witness :
  exists res w',
    get_user_data_chesscom (fun url (w : unit) => (pages url, w))
      (fun _ futs => reverse futs) 0 [u "ann"; u "bob"] tt
    = (Some (Return res), w')
    /\ res ≡ₚ successes
                ((fun username => (username, user_data pages username))
                   <$> [u "ann"; u "bob"]).
Proof.
  apply (chesscom_reports (fun url (w : unit) => (pages url, w))
           (fun _ futs => reverse futs) pages
           (fun _ futs => reverse_Permutation futs) (fun _ _ => eq_refl)
           0 [u "ann"; u "bob"] tt).
  - simpl. lia.
  - repeat (constructor; [vm_compute; reflexivity|]). constructor.
Defined.

(** ** The tally of [example_get_games.py] *)

Section Tally.
Implicit Types (data : list (list nat)) (game : gmap str str).
Local Open Scope nat_scope.

Lemma index_lt x xs i : index x xs = Some i -> i < length xs.
Proof.
  revert i. induction xs as [|y ys IH]; intros i; cbn [index]; [done|].
  destruct (bool_decide (y = x)); [intros [= <-]; cbn; lia|].
  destruct (index x ys) as [j|]; [|done]. intros [= <-].
  specialize (IH j eq_refl). cbn. lia.
Qed.

Lemma tally_step_return data game data' :
  tally_step data game = Return data' ->
  match cell_of game with
  | Some (r, t) => data' = alter (alter S t) r data /\ r < 3 /\ t < 3
  | None => data' = data
  end.
Proof.
  unfold tally_step, cell_of.
  destruct (game !! u "Event") as [event|]; [|done].
  cbn [mbind option_bind].
  destruct (split event !! 1) as [time_format|]; [|done].
  cbn [mbind option_bind].
  destruct (index time_format TIME_FORMATS) as [t|] eqn:Ht;
    cbn [mbind option_bind]; [|by intros [= <-]].
  destruct (game !! u "Result") as [game_result|]; [|done].
  cbn [mbind option_bind].
  destruct (index game_result GAME_RESULTS) as [r|] eqn:Hr; [|done].
  cbn [mbind option_bind].
  intros [= <-]. apply index_lt in Ht, Hr. cbn in Ht, Hr. done.
Qed.

Lemma shape_alter data r t :
  shape data -> shape (alter (alter S t) r data).
Proof.
  intros [Hlen Hrows]. split; [by rewrite length_alter|].
  apply Forall_forall. intros row Hrow.
  apply list_elem_of_lookup in Hrow as [i Hi].
  rewrite Forall_forall in Hrows.
  destruct (decide (i = r)) as [->|Hne].
  - rewrite list_lookup_alter_eq in Hi.
    destruct (data !! r) as [row0|] eqn:Hr; [|done]. injection Hi as <-.
    rewrite length_alter. apply Hrows. by eapply list_elem_of_lookup_2.
  - rewrite list_lookup_alter_ne in Hi by done.
    apply Hrows. by eapply list_elem_of_lookup_2.
Qed.

Lemma cell_alter data r0 t0 r t :
  shape data -> r0 < 3 -> t0 < 3 ->
  cell r t (alter (alter S t0) r0 data)
  = cell r t data + (if bool_decide ((r, t) = (r0, t0)) then 1 else 0).
Proof.
  intros [Hlen Hrows] Hr0 Ht0. unfold cell.
  destruct (decide (r = r0)) as [->|Hr].
  - rewrite list_lookup_alter_eq.
    destruct (lookup_lt_is_Some_2 data r0 ltac:(lia)) as [row Hrow].
    rewrite Hrow. cbn.
    assert (Hrowlen : length row = 3).
    { rewrite Forall_forall in Hrows. apply Hrows.
      by eapply list_elem_of_lookup_2. }
    destruct (decide (t = t0)) as [->|Ht].
    + rewrite list_lookup_alter_eq, bool_decide_eq_true_2 by done.
      destruct (lookup_lt_is_Some_2 row t0 ltac:(lia)) as [n ->]. cbn. lia.
    + rewrite list_lookup_alter_ne by done.
      rewrite bool_decide_eq_false_2 by congruence. lia.
  - rewrite list_lookup_alter_ne by done.
    rewrite bool_decide_eq_false_2 by congruence. lia.
Qed.

Lemma tally_from games : forall data0 data r t,
  shape data0 -> tally games data0 = Return data ->
  cell r t data
  = cell r t data0
    + length (filter (fun game => cell_of game = Some (r, t)) games).
Proof.
  induction games as [|game games IH]; intros data0 data r t Hshape;
    cbn [tally].
  { intros [= <-]. cbn. lia. }
  destruct (tally_step data0 game) as [data1|e] eqn:Hstep; [|done].
  apply tally_step_return in Hstep.
  destruct (cell_of game) as [[r0 t0]|] eqn:Hcell.
  - destruct Hstep as (-> & Hr0 & Ht0). intros Hrest.
    rewrite (IH _ _ r t (shape_alter _ _ _ Hshape) Hrest).
    rewrite cell_alter by done.
    destruct (decide ((r, t) = (r0, t0))) as [[= -> ->]|Hne].
    + rewrite filter_cons_True, bool_decide_eq_true_2 by done. cbn. lia.
    + rewrite filter_cons_False, bool_decide_eq_false_2 by congruence. lia.
  - subst data1. intros Hrest. rewrite (IH _ _ r t Hshape Hrest).
    by rewrite filter_cons_False by (by rewrite Hcell).
Qed.

(** When the loop ends without an exception, the cell for a result and a
    time format holds the number of games with that result and that time
    format; games whose time format is not listed are counted nowhere. *)
Theorem tally_counts games data r t :
  tally games zeros = Return data ->
  cell r t data
  = length (filter (fun game => cell_of game = Some (r, t)) games).
Proof.
  intros Hrun.
  rewrite (tally_from games zeros data r t); [|by repeat constructor|done].
  unfold cell, zeros. by destruct r as [|[|[|r]]], t as [|[|[|t]]].
Qed.
End Tally.

(** The tally of three games: the two Blitz games are in one cell. *)
Lemma tally_counts_witness :
  cell 0 1 [[0; 2; 0]; [0; 0; 0]; [0; 0; 0]]%nat
  = length (filter (fun game => cell_of game = Some (0, 1)%nat) three_games).
Proof.
  apply (tally_counts three_games [[0; 2; 0]; [0; 0; 0]; [0; 0; 0]]%nat 0 1).
  vm_compute. reflexivity.
Defined.

(** ** The record stream parser: where [NameError] can come from *)

Section ParserNameError.
Variable tags : gset str.
Variable max_games : limit.

Implicit Types (line : bytes) (lines : list bytes) (st : parser_state).

Lemma view_not_name_error line : view line <> BadTagLine NameError.
Proof.
  unfold view. destruct (bool_decide (line = [x0a])); [done|].
  destruct (negb (startswith_bracket line)); [done|].
  destruct (decode (drop 1 line)) as [line'|]; [|done].
  unfold split_tag.
  destruct (quote_indices line' !! 0%nat); [|done].
  by destruct (quote_indices line' !! 1%nat).
Qed.

(** Once [current_game] is bound, no pass through the loop body raises
    [NameError]. *)
Lemma step_open_no_name_error line st :
  is_Some (current_game st) ->
  step tags max_games line st <> Raise NameError.
Proof.
  intros [game Hgame]. rewrite step_view. cbv zeta.
  pose proof (view_not_name_error line) as Hview.
  destruct (view line) as [|text|tag_name tag_value|e]; [done| | |congruence].
  - destruct (bool_decide (_ ∈ tags)); [|done].
    destruct text; [|done]. unfold store. cbn. by rewrite Hgame.
  - unfold tag_line, fetch_tag, store. cbn [games_analyzed l current_game].
    rewrite Hgame.
    destruct (bool_decide (tag_name = u "Event")).
    + destruct (0 <? games_analyzed st);
        (destruct (exceeds _ max_games); [done|]);
        by destruct (bool_decide (_ ∈ tags)).
    + by destruct (bool_decide (tag_name ∈ tags)).
Qed.

(** The first boundary line raises nothing, although [current_game] is
    not bound yet: line 87 skips the [yield] while [games_analyzed] is 0. *)
Lemma step_first_boundary_no_name_error line st :
  games_analyzed st = 0 ->
  is_boundary line = true ->
  step tags max_games line st <> Raise NameError.
Proof.
  intros Hzero Hline. rewrite step_view. cbv zeta.
  unfold is_boundary in Hline.
  destruct (view line) as [| |tag_name tag_value|]; try done.
  unfold tag_line, fetch_tag, store. cbn [games_analyzed l current_game].
  rewrite Hline, Hzero. cbn [Z.ltb Z.compare].
  destruct (exceeds _ max_games); [done|].
  by destruct (bool_decide (_ ∈ tags)).
Qed.

Lemma scan_open_no_name_error lines : forall st,
  is_Some (current_game st) ->
  (scan tags max_games lines st).2 <> Raise NameError.
Proof.
  induction lines as [|line lines IH]; intros st Hopen; cbn [scan]; [done|].
  pose proof (step_open_no_name_error line st Hopen) as Hstep.
  destruct (step tags max_games line st) as [[[y st1] c]|e] eqn:Heq;
    [|cbn; congruence].
  destruct c; [|done].
  apply step_spec in Heq as [_ Heq].
  assert (Hopen1 : is_Some (current_game st1)).
  { destruct (is_boundary line).
    - destruct Heq as (_ & _ & _ & ->). by eexists.
    - destruct Heq as (_ & _ & _ & ->). destruct Hopen as [game ->].
      by eexists. }
  specialize (IH st1 Hopen1).
  by destruct (scan tags max_games lines st1) as [ys r].
Qed.

Lemma scan_first_boundary_no_name_error pre head rest :
  Forall (fun line => ignored tags line = true) pre ->
  is_boundary head = true ->
  forall st, games_analyzed st = 0 ->
  (scan tags max_games (pre ++ head :: rest) st).2 <> Raise NameError.
Proof.
  intros Hpre Hhead.
  induction Hpre as [|line pre Hline _ IH]; intros st Hzero.
  - cbn [app scan].
    pose proof (step_first_boundary_no_name_error head st Hzero Hhead)
      as Hstep.
    destruct (step tags max_games head st) as [[[y st1] c]|e] eqn:Heq;
      [|cbn; congruence].
    destruct c; [|done].
    apply step_spec in Heq as [_ Heq]. rewrite Hhead in Heq.
    destruct Heq as (_ & _ & _ & Hcur).
    assert (Hopen1 : is_Some (current_game st1)) by (rewrite Hcur; by eexists).
    pose proof (scan_open_no_name_error rest st1 Hopen1) as Hrest.
    by destruct (scan tags max_games rest st1) as [ys r].
  - cbn [app scan]. rewrite (step_ignored tags max_games line st Hline).
    specialize (IH (with_l (l st + 1) st) Hzero).
    by destruct (scan tags max_games (pre ++ head :: rest) _) as [ys r].
Qed.

(** When the first line that is not passed over is a boundary line, the
    run never ends with [NameError], whatever follows it: [current_game]
    is bound from the first [Event] line on, and the [yield] of line 88 is
    skipped at that line. *)
Theorem no_name_error_after_boundary pre head rest :
  Forall (fun line => ignored tags line = true) pre ->
  is_boundary head = true ->
  (get_game_data_lichess tags max_games (pre ++ head :: rest)).2
  <> Raise NameError.
Proof.
  intros Hpre Hhead. unfold get_game_data_lichess.
  pose proof (scan_first_boundary_no_name_error pre head rest Hpre Hhead
                (mk_parser 0 0 None) eq_refl) as Hscan.
  destruct (scan tags max_games (pre ++ head :: rest) _)
    as [ys [[st c]|e]]; cbn in *; congruence.
Qed.
End ParserNameError.

Lemma no_name_error_after_boundary_witness :
  (get_game_data_lichess {[ u "Event"; u "Result" ]} Inf
     ([b newline; b (tag "Site" "lichess.org")]
      ++ b (tag "Event" "Rated Blitz game") :: [b (tag "Result" "1-0")])).2
  <> Raise NameError.
Proof.
  apply (no_name_error_after_boundary {[ u "Event"; u "Result" ]} Inf
           [b newline; b (tag "Site" "lichess.org")]
           (b (tag "Event" "Rated Blitz game")) [b (tag "Result" "1-0")]).
  - repeat constructor; vm_compute; reflexivity.
  - vm_compute. reflexivity.
Defined.
